(** * graphvent: the lockable extension, the context router, the change list
      and the signal serializer

    A shallow embedding of the parts of the graphvent runtime that the
    specification makes claims about:

    - [Lockable]: the two-phase locking state machine of [LockableExt]
      ([NewLockableExt], [HandleLockSignal], [HandleErrorSignal],
      [HandleLinkSignal], [HandleSuccessSignal], [Process]);
    - [Router]: [Context.Send] with its per-node bounded mailbox;
    - [Extension]: [Changes.Add] over Go slices;
    - [Wire]: [SerializeSignal] and its padding.

    Go maps are [gmap]s, a nil map or nil pointer is [None], a panic is the
    [Panic] outcome of [result], and [uuid.New()] reads the next element of
    an arbitrary stream of identifiers. *)

From Stdlib Require Import ZArith Lia.
From stdpp Require Import base option list gmap strings.

Open Scope string_scope.
Open Scope nat_scope.
Open Scope list_scope.

(** ** Outcomes of Go code that may panic *)

Inductive result (A : Type) : Type :=
| Ok (a : A)
| Panic (msg : string).
Arguments Ok {A} a.
Arguments Panic {A} msg.

Definition is_Ok {A} (r : result A) : Prop :=
  match r with Ok _ => True | Panic _ => False end.

(** ** Identifiers *)

(** [NodeID] and [uuid.UUID] are 128-bit values; only equality and the zero
    value matter here. *)
Definition NodeID := N.
Definition UUID := N.
Definition ZeroID : NodeID := 0%N.
Definition ZeroUUID : UUID := 0%N.

(** ** Signals (the variants the lockable extension inspects) *)

Inductive SignalDirection := Up | Down | Direct.

Record SignalHeader := mkSignalHeader {
  Id : UUID;
  Dir : SignalDirection }.

Record ResponseHeader := mkResponseHeader {
  Header : SignalHeader;
  RespReqID : UUID }.

Inductive Signal :=
| LinkSignal (h : SignalHeader) (node_id : NodeID) (action : string)
| LockSignal (h : SignalHeader) (state : string)
| ErrorSignal (h : ResponseHeader) (error : string)
| SuccessSignal (h : ResponseHeader)
| OtherSignal (h : SignalHeader).

Definition SignalHeader_of (s : Signal) : SignalHeader :=
  match s with
  | LinkSignal h _ _ | LockSignal h _ | OtherSignal h => h
  | ErrorSignal h _ | SuccessSignal h => Header h
  end.

Definition ID (s : Signal) : UUID := Id (SignalHeader_of s).
Definition Direction (s : Signal) : SignalDirection := Dir (SignalHeader_of s).

#[global] Instance SignalDirection_eq_dec : EqDecision SignalDirection.
Proof. solve_decision. Defined.
#[global] Instance SignalHeader_eq_dec : EqDecision SignalHeader.
Proof. solve_decision. Defined.
#[global] Instance ResponseHeader_eq_dec : EqDecision ResponseHeader.
Proof. solve_decision. Defined.
#[global] Instance Signal_eq_dec : EqDecision Signal.
Proof. solve_decision. Defined.

(** A routed message.  Signatures and authorizations are not modelled: the
    router and the lockable extension never look at them. *)
Record Message := mkMessage {
  Source : NodeID;
  Dest : NodeID;
  Payload : Signal }.

#[global] Instance Message_eq_dec : EqDecision Message.
Proof. solve_decision. Defined.

Definition Messages := list Message.
Definition Changes := list string.

(** Modelled from the spec: the revision of [Messages.Add] that the lockable
    handlers call as [messages.Add(ctx, node.ID, node.Key, signal, dest)] is
    not among the sources; it appends one message from the node to [dest].
    (The revision that is among the sources panics when the message cannot
    be serialized or signed; building a message is taken to succeed.) *)
Definition Messages_Add (messages : Messages) (node : NodeID)
    (signal : Signal) (dest : NodeID) : Messages :=
  messages ++ [mkMessage node dest signal].

(** Modelled from the spec: the value-returning [Changes.Add] that the
    lockable handlers call as [changes = changes.Add(...)] is not among the
    sources; it returns the list extended with the new field names. *)
Definition Changes_Add (changes : Changes) (fields : list string) : Changes :=
  changes ++ fields.

Module Lockable.

Inductive ReqState := Unlocked | Unlocking | Locked | Locking | AbortingLock.

#[global] Instance ReqState_eq_dec : EqDecision ReqState.
Proof. solve_decision. Defined.

Record ReqInfo := mkReqInfo {
  info_State : ReqState;
  info_MsgID : UUID }.

#[global] Instance ReqInfo_eq_dec : EqDecision ReqInfo.
Proof. solve_decision. Defined.

Record LockableExt := mkLockableExt {
  State : ReqState;
  ReqID : option UUID;
  Owner : option NodeID;
  PendingOwner : option NodeID;
  PendingID : UUID;
  Requirements : option (gmap NodeID ReqInfo) }.

(** Field assignments [ext.F = v]. *)
Definition set_State (v : ReqState) (e : LockableExt) : LockableExt :=
  mkLockableExt v (ReqID e) (Owner e) (PendingOwner e) (PendingID e) (Requirements e).
Definition set_ReqID (v : option UUID) (e : LockableExt) : LockableExt :=
  mkLockableExt (State e) v (Owner e) (PendingOwner e) (PendingID e) (Requirements e).
Definition set_Owner (v : option NodeID) (e : LockableExt) : LockableExt :=
  mkLockableExt (State e) (ReqID e) v (PendingOwner e) (PendingID e) (Requirements e).
Definition set_PendingOwner (v : option NodeID) (e : LockableExt) : LockableExt :=
  mkLockableExt (State e) (ReqID e) (Owner e) v (PendingID e) (Requirements e).
Definition set_PendingID (v : UUID) (e : LockableExt) : LockableExt :=
  mkLockableExt (State e) (ReqID e) (Owner e) (PendingOwner e) v (Requirements e).
Definition set_Requirements (v : option (gmap NodeID ReqInfo)) (e : LockableExt) : LockableExt :=
  mkLockableExt (State e) (ReqID e) (Owner e) (PendingOwner e) (PendingID e) v.

(** Reading a Go map: a nil map reads as the empty map. *)
Definition reqs (e : LockableExt) : gmap NodeID ReqInfo :=
  default ∅ (Requirements e).

(** The zero value [ReqInfo{}] that a lookup of a missing key yields. *)
Definition ReqInfo_zero : ReqInfo := mkReqInfo Unlocked ZeroUUID.

(** [NewLockableExt(requirements)]; a nil slice is [None]. *)
Definition NewLockableExt (requirements : option (list NodeID)) : LockableExt :=
  let reqs :=
    match requirements with
    | None => None
    | Some ids =>
        Some (foldl (fun (m : gmap NodeID ReqInfo) id => <[id := mkReqInfo Unlocked ZeroUUID]> m)
                    ∅ ids)
    end in
  mkLockableExt Unlocked None None None ZeroUUID reqs.

(** What a handler hands back: the mutated extension, the outbound messages,
    the change list and the position reached in the identifier stream. *)
Definition Outcome : Type := LockableExt * Messages * Changes * nat.

(** ** The invariant of the state machine

    [allowed s r]: the states [r] a requirement can be in while the
    extension is in state [s]. *)
Definition allowed (s r : ReqState) : Prop :=
  match s with
  | Unlocked => r = Unlocked
  | Locking => r = Locking ∨ r = Locked
  | Locked => r = Locked
  | Unlocking => r = Unlocking ∨ r = Unlocked
  | AbortingLock => r ≠ Locked
  end.

Record Inv (ext : LockableExt) : Prop := mkInv {
  Inv_reqs : map_Forall (λ _ v, allowed (State ext) (info_State v)) (reqs ext);
  Inv_owner : is_Some (Owner ext) ↔ State ext = Locked ∨ State ext = Unlocking;
  Inv_pending : State ext = Locking ∨ State ext = AbortingLock →
                is_Some (PendingOwner ext) ∧ is_Some (ReqID ext);
  Inv_unlocking : State ext = Unlocking → PendingOwner ext = None;
  Inv_map : State ext = Locking → is_Some (Requirements ext) }.

Section Handlers.

(** [uuid.New()]: the [n]-th identifier the process draws.  Nothing is
    assumed about the stream (not even that its elements differ). *)
Variable uuid_New : nat -> UUID.

Definition NewSignalHeader (direction : SignalDirection) (g : nat) : SignalHeader * nat :=
  (mkSignalHeader (uuid_New g) direction, S g).

Definition NewResponseHeader (req_id : UUID) (direction : SignalDirection) (g : nat)
    : ResponseHeader * nat :=
  let (h, g') := NewSignalHeader direction g in
  (mkResponseHeader h req_id, g').

Definition NewSuccessSignal (req_id : UUID) (g : nat) : Signal * nat :=
  let (h, g') := NewResponseHeader req_id Direct g in (SuccessSignal h, g').

Definition NewErrorSignal (req_id : UUID) (err : string) (g : nat) : Signal * nat :=
  let (h, g') := NewResponseHeader req_id Direct g in (ErrorSignal h err, g').

Definition NewLockSignal (state : string) (g : nat) : Signal * nat :=
  let (h, g') := NewSignalHeader Direct g in (LockSignal h state, g').

(** The body of the fan-out loops of [HandleLockSignal]:
    [for id, info := range ext.Requirements] sends a fresh lock signal with
    the given action to [id] and records it in the requirement.  Go leaves
    the order of a map range unspecified; the model visits the entries in
    the order of [map_to_list]. *)
Definition fanout_step (node : NodeID) (action : string) (st : ReqState)
    (acc : gmap NodeID ReqInfo * Messages * nat) (entry : NodeID * ReqInfo)
    : gmap NodeID ReqInfo * Messages * nat :=
  let '(m, messages, g) := acc in
  let (lock_signal, g') := NewLockSignal action g in
  let info := mkReqInfo st (ID lock_signal) in
  (<[entry.1 := info]> m, Messages_Add messages node lock_signal entry.1, g').

Definition fanout (node : NodeID) (action : string) (st : ReqState)
    (m : gmap NodeID ReqInfo) (messages : Messages) (g : nat)
    : gmap NodeID ReqInfo * Messages * nat :=
  foldl (fanout_step node action st) (m, messages, g) (map_to_list m).

(** The loop of [HandleErrorSignal]: only requirements that are [Locked]
    are sent an unlock. *)
Definition abort_step (node : NodeID)
    (acc : gmap NodeID ReqInfo * Messages * nat) (entry : NodeID * ReqInfo)
    : gmap NodeID ReqInfo * Messages * nat :=
  if decide (info_State entry.2 = Locked)
  then fanout_step node "unlock" Unlocking acc entry
  else acc.

Definition abort_fanout (node : NodeID) (m : gmap NodeID ReqInfo)
    (messages : Messages) (g : nat) : gmap NodeID ReqInfo * Messages * nat :=
  foldl (abort_step node) (m, messages, g) (map_to_list m).

(** The counting loops of [HandleSuccessSignal]: [reqs] counts the entries,
    the second counter those in state [s]. *)
Definition count_step (s : ReqState) (acc : nat * nat) (entry : NodeID * ReqInfo)
    : nat * nat :=
  (S acc.1, if decide (info_State entry.2 = s) then S acc.2 else acc.2).

Definition count_reqs (s : ReqState) (m : gmap NodeID ReqInfo) : nat * nat :=
  foldl (count_step s) (0, 0) (map_to_list m).

Definition HandleLockSignal (node source : NodeID) (h : SignalHeader) (state : string)
    (ext : LockableExt) (g : nat) : result Outcome :=
  let messages : Messages := [] in
  let changes : Changes := [] in
  if decide (state = "lock") then
    if decide (State ext = Unlocked) then
      if decide (size (reqs ext) = 0) then
        let ext := set_State Locked ext in
        let new_owner := source in
        let ext := set_PendingOwner (Some new_owner) ext in
        let ext := set_Owner (Some new_owner) ext in
        let changes := Changes_Add changes ["locked"] in
        let (sig, g) := NewSuccessSignal (Id h) g in
        Ok (ext, Messages_Add messages node sig new_owner, changes, g)
      else
        let ext := set_State Locking ext in
        let ext := set_ReqID (Some (Id h)) ext in
        let ext := set_PendingOwner (Some source) ext in
        let ext := set_PendingID (Id h) ext in
        let changes := Changes_Add changes ["locking"] in
        let '(m, messages, g) := fanout node "lock" Locking (reqs ext) messages g in
        Ok (set_Requirements (Some m) ext, messages, changes, g)
    else
      let (sig, g) := NewErrorSignal (Id h) "not_unlocked" g in
      Ok (ext, Messages_Add messages node sig source, changes, g)
  else if decide (state = "unlock") then
    if decide (State ext = Locked) then
      if decide (size (reqs ext) = 0) then
        let ext := set_State Unlocked ext in
        let new_owner := source in
        let ext := set_PendingOwner None ext in
        let ext := set_Owner None ext in
        let changes := Changes_Add changes ["unlocked"] in
        let (sig, g) := NewSuccessSignal (Id h) g in
        Ok (ext, Messages_Add messages node sig new_owner, changes, g)
      else
        match Owner ext with
        | None => Panic "nil pointer dereference"
        | Some owner =>
            if decide (source = owner) then
              let ext := set_State Unlocking ext in
              let ext := set_ReqID (Some (Id h)) ext in
              let ext := set_PendingOwner None ext in
              let ext := set_PendingID (Id h) ext in
              let changes := Changes_Add changes ["unlocking"] in
              let '(m, messages, g) :=
                fanout node "unlock" Unlocking (reqs ext) messages g in
              Ok (set_Requirements (Some m) ext, messages, changes, g)
            else Ok (ext, messages, changes, g)
        end
    else
      let (sig, g) := NewErrorSignal (Id h) "not_locked" g in
      Ok (ext, Messages_Add messages node sig source, changes, g)
  else Ok (ext, messages, changes, g).

Definition HandleErrorSignal (node source : NodeID) (h : ResponseHeader) (str : string)
    (ext : LockableExt) (g : nat) : result Outcome :=
  let messages : Messages := [] in
  let changes : Changes := [] in
  if decide (str = "not_unlocked") then
    let changes := Changes_Add changes ["requirements"] in
    if decide (State ext = Locking) then
      let ext := set_State AbortingLock ext in
      let req_info := default ReqInfo_zero (reqs ext !! source) in
      let req_info := mkReqInfo Unlocked (info_MsgID req_info) in
      match Requirements ext with
      | None => Panic "assignment to entry in nil map"
      | Some m =>
          let m := <[source := req_info]> m in
          let '(m, messages, g) := abort_fanout node m messages g in
          Ok (set_Requirements (Some m) ext, messages, changes, g)
      end
    else Ok (ext, messages, changes, g)
  else if decide (str = "not_locked") then
    Panic "RECEIVED not_locked, meaning a node thought it held a lock it didn't"
  else Ok (ext, messages, changes, g).

Definition HandleLinkSignal (node source : NodeID) (h : SignalHeader)
    (node_id : NodeID) (action : string) (ext : LockableExt) (g : nat) : result Outcome :=
  let messages : Messages := [] in
  let changes : Changes := [] in
  if decide (State ext = Unlocked) then
    if decide (action = "add") then
      match reqs ext !! node_id with
      | Some _ =>
          let (sig, g) := NewErrorSignal (Id h) "already_requirement" g in
          Ok (ext, Messages_Add messages node sig source, changes, g)
      | None =>
          let m := <[node_id := mkReqInfo Unlocked ZeroUUID]> (reqs ext) in
          let ext := set_Requirements (Some m) ext in
          let changes := Changes_Add changes ["requirement_added"] in
          let (sig, g) := NewSuccessSignal (Id h) g in
          Ok (ext, Messages_Add messages node sig source, changes, g)
      end
    else if decide (action = "remove") then
      match reqs ext !! node_id with
      | None =>
          let (sig, g) := NewErrorSignal (Id h) "can't link: not_requirement" g in
          Ok (ext, Messages_Add messages node sig source, changes, g)
      | Some _ =>
          let ext := set_Requirements (delete node_id <$> Requirements ext) ext in
          let changes := Changes_Add changes ["requirement_removed"] in
          let (sig, g) := NewSuccessSignal (Id h) g in
          Ok (ext, Messages_Add messages node sig source, changes, g)
      end
    else
      let (sig, g) := NewErrorSignal (Id h) "unknown_action" g in
      Ok (ext, Messages_Add messages node sig source, changes, g)
  else
    let (sig, g) := NewErrorSignal (Id h) "not_unlocked" g in
    Ok (ext, Messages_Add messages node sig source, changes, g).

(** [ext.Requirements[source] = info] where the key was just found, so the
    map is not nil. *)
Definition store_req (source : NodeID) (info : ReqInfo) (ext : LockableExt) : LockableExt :=
  set_Requirements (Some (<[source := info]> (reqs ext))) ext.

Definition HandleSuccessSignal (node source : NodeID) (h : ResponseHeader)
    (ext : LockableExt) (g : nat) : result Outcome :=
  let messages : Messages := [] in
  let changes : Changes := [] in
  if decide (source = node) then Ok (ext, messages, changes, g)
  else
    match reqs ext !! source with
    | None => Ok (ext, messages, changes, g)
    | Some info =>
        if decide (info_MsgID info ≠ RespReqID h) then Ok (ext, messages, changes, g)
        else if decide (info_State info = Locking) then
          if decide (State ext = Locking) then
            let info := mkReqInfo Locked ZeroUUID in
            let ext := store_req source info ext in
            let '(reqs_n, locked) := count_reqs Locked (reqs ext) in
            if decide (locked = reqs_n) then
              let ext := set_State Locked ext in
              let ext := set_Owner (PendingOwner ext) ext in
              let changes := Changes_Add changes ["locked"] in
              match Owner ext with
              | None => Panic "nil pointer dereference"
              | Some owner =>
                  let (sig, g) := NewSuccessSignal (PendingID ext) g in
                  Ok (ext, Messages_Add messages node sig owner, changes, g)
              end
            else
              let changes := Changes_Add changes ["partial_lock"] in
              Ok (ext, messages, changes, g)
          else if decide (State ext = AbortingLock) then
            let (lock_signal, g) := NewLockSignal "unlock" g in
            let info := mkReqInfo Unlocking (ID lock_signal) in
            let ext := store_req source info ext in
            Ok (ext, Messages_Add messages node lock_signal source, changes, g)
          else Ok (ext, messages, changes, g)
        else if decide (info_State info = Unlocking) then
          let info := mkReqInfo Unlocked ZeroUUID in
          let ext := store_req source info ext in
          let '(reqs_n, unlocked) := count_reqs Unlocked (reqs ext) in
          if decide (unlocked = reqs_n) then
            let old_state := State ext in
            let ext := set_State Unlocked ext in
            if decide (old_state = Unlocking) then
              match Owner ext with
              | None => Panic "nil pointer dereference"
              | Some previous_owner =>
                  let ext := set_Owner (PendingOwner ext) ext in
                  let ext := set_ReqID None ext in
                  let changes := Changes_Add changes ["unlocked"] in
                  let (sig, g) := NewSuccessSignal (PendingID ext) g in
                  Ok (ext, Messages_Add messages node sig previous_owner, changes, g)
              end
            else if decide (old_state = AbortingLock) then
              let changes := Changes_Add changes ["lock_aborted"] in
              match ReqID ext, PendingOwner ext with
              | Some req_id, Some pending_owner =>
                  let (sig, g) := NewErrorSignal req_id "not_unlocked" g in
                  let messages := Messages_Add messages node sig pending_owner in
                  let ext := set_PendingOwner (Owner ext) ext in
                  Ok (ext, messages, changes, g)
              | _, _ => Panic "nil pointer dereference"
              end
            else Ok (ext, messages, changes, g)
          else
            let changes := Changes_Add changes ["partial_unlock"] in
            Ok (ext, messages, changes, g)
        else Ok (ext, messages, changes, g)
    end.

(** [LockableExt.Process]: Up signals go to the owner, Down signals to every
    requirement, Direct signals to the handler of their type. *)
Definition Process (node source : NodeID) (signal : Signal)
    (ext : LockableExt) (g : nat) : result Outcome :=
  let messages : Messages := [] in
  let changes : Changes := [] in
  match Direction signal with
  | Up =>
      match Owner ext with
      | Some owner =>
          if decide (owner ≠ node)
          then Ok (ext, Messages_Add messages node signal owner, changes, g)
          else Ok (ext, messages, changes, g)
      | None => Ok (ext, messages, changes, g)
      end
  | Down =>
      Ok (ext,
          foldl (fun msgs (entry : NodeID * ReqInfo) => Messages_Add msgs node signal entry.1)
                messages (map_to_list (reqs ext)),
          changes, g)
  | Direct =>
      match signal with
      | LinkSignal h node_id action => HandleLinkSignal node source h node_id action ext g
      | LockSignal h state => HandleLockSignal node source h state ext g
      | ErrorSignal h err => HandleErrorSignal node source h err ext g
      | SuccessSignal h => HandleSuccessSignal node source h ext g
      | OtherSignal _ => Ok (ext, messages, changes, g)
      end
  end.

(** The states of the extension of node [node] that its handlers can
    produce: it starts as [NewLockableExt] builds it and then processes any
    signals, from any senders, with any identifiers drawn in between. *)
Inductive reachable (node : NodeID) : LockableExt → Prop :=
| reachable_new requirements : reachable node (NewLockableExt requirements)
| reachable_step ext source signal g ext' messages changes g' :
    reachable node ext →
    Process node source signal ext g = Ok (ext', messages, changes, g') →
    reachable node ext'.

End Handlers.

End Lockable.

(** ** The context router: [Context.Send] *)

Module Router.

(** A buffered Go channel of messages: [make(chan *Message, Cap)]. *)
Record Chan := mkChan {
  Cap : nat;
  Queue : list Message }.

Record Node := mkNode {
  MsgChan : Chan }.

Inductive error :=
| NodeNotFoundError
| LoadError (msg : string)
| SignalOverflow (dest : NodeID).

#[global] Instance error_eq_dec : EqDecision error.
Proof. solve_decision. Defined.

(** What the database holds under a node id: bytes that decode to a node
    with a mailbox of the stored size, or bytes that fail to decode. *)
Inductive Stored :=
| Persisted (buffer_size : nat)
| Corrupt (msg : string).

(** The routing map of the nodes local to the context, and the database.
    Nodes are held by pointer in Go; the model keeps each node under its id
    and writes a changed node back under that id. *)
Record Context := mkContext {
  nodeMap : gmap NodeID Node;
  DB : gmap NodeID Stored }.

Definition AddNode (ctx : Context) (id : NodeID) (node : Node) : Context :=
  mkContext (<[id := node]> (nodeMap ctx)) (DB ctx).

(** Modelled from the spec: [LoadNode] of this revision is not among the
    sources.  Per the routing description (look up locally; if absent,
    attempt load-from-persistence; if still absent, fail with NodeNotFound)
    it reads the database, fails with [NodeNotFoundError] when the id has no
    record, fails with a decoding error on a bad record, and otherwise
    registers the decoded node, with an empty mailbox, in the context. *)
Definition LoadNode (ctx : Context) (id : NodeID) : Context * (Node + error) :=
  match DB ctx !! id with
  | None => (ctx, inr NodeNotFoundError)
  | Some (Corrupt msg) => (ctx, inr (LoadError msg))
  | Some (Persisted buffer_size) =>
      let node := mkNode (mkChan buffer_size []) in
      (AddNode ctx id node, inl node)
  end.

(** [ctx.getNode(id)] *)
Definition getNode (ctx : Context) (id : NodeID) : Context * (Node + error) :=
  match nodeMap ctx !! id with
  | Some target => (ctx, inl target)
  | None => LoadNode ctx id
  end.

(** How a call of [Send] ends: [return nil], [return err], or a panic. *)
Inductive send_result :=
| SendOk
| SendErr (e : error)
| SendPanic (msg : string).

(** [target.MsgChan <- msg] once the channel is known to have room. *)
Definition enqueue (ctx : Context) (id : NodeID) (target : Node) (msg : Message) : Context :=
  AddNode ctx id (mkNode (mkChan (Cap (MsgChan target)) (Queue (MsgChan target) ++ [msg]))).

(** [Context.Send]: the [select] with a [default] arm sends when the channel
    has room and otherwise takes the overflow arm at once.  No receiver runs
    during the call in this model. *)
Fixpoint Send (ctx : Context) (messages : Messages) : Context * send_result :=
  match messages with
  | [] => (ctx, SendOk)
  | msg :: rest =>
      if decide (Dest msg = ZeroID) then (ctx, SendPanic "Can't send to null ID")
      else
        match getNode ctx (Dest msg) with
        | (ctx, inl target) =>
            if decide (length (Queue (MsgChan target)) < Cap (MsgChan target))
            then Send (enqueue ctx (Dest msg) target msg) rest
            else (ctx, SendErr (SignalOverflow (Dest msg)))
        | (ctx, inr err) => (ctx, SendErr err)
        end
  end.

(** The messages waiting in the mailbox of node [id]. *)
Definition mailbox (ctx : Context) (id : NodeID) : list Message :=
  match nodeMap ctx !! id with
  | Some node => Queue (MsgChan node)
  | None => []
  end.

End Router.

(** ** [Changes.Add] of extension.go, over Go slices *)

Module Extension.

(** A slice value is a window [array[0:len]] on a backing array of
    [capacity] cells. *)
Record slice := mkSlice {
  array : nat;
  len : nat;
  capacity : nat }.

(** Memory: the backing arrays by address, and the slice variables by
    address (a [*Changes] is the address of such a variable). *)
Record mem := mkMem {
  arrays : gmap nat (list string);
  vars : gmap nat slice }.

Definition cells (m : mem) (s : slice) : list string :=
  default [] (arrays m !! array s).

(** The elements a slice value shows: the first [len] cells of its array. *)
Definition elems (m : mem) (s : slice) : list string :=
  take (len s) (cells m s).

(** [append(s, fields...)]: with room in the backing array the new elements
    are written in place after the first [len] cells and the result shares
    the array; otherwise a new array is allocated (Go may give it spare
    capacity; the model gives it none). *)
Definition append (m : mem) (s : slice) (fields : list string) : mem * slice :=
  let n := length fields in
  if decide (len s + n ≤ capacity s) then
    let a := cells m s in
    let a' := take (len s) a ++ fields ++ drop (len s + n) a in
    (mkMem (<[array s := a']> (arrays m)) (vars m),
     mkSlice (array s) (len s + n) (capacity s))
  else
    let fresh_array := fresh (dom (arrays m)) in
    (mkMem (<[fresh_array := elems m s ++ fields]> (arrays m)) (vars m),
     mkSlice fresh_array (len s + n) (len s + n)).

(** [func (changes *Changes) Add(fields ...string)]:
    [new_changes := append( *changes, fields...)] then
    [changes = &new_changes], which only moves the method's own pointer. *)
Definition Changes_Add (m : mem) (changes : nat) (fields : list string) : result mem :=
  match vars m !! changes with
  | None => Panic "nil pointer dereference"
  | Some s =>
      let (m, new_changes) := append m s fields in
      let new_changes_addr := fresh (dom (vars m)) in
      let m := mkMem (arrays m) (<[new_changes_addr := new_changes]> (vars m)) in
      let changes := new_changes_addr in
      Ok m
  end.

(** The caller's [Changes] value: what the variable at [p] shows. *)
Definition read (m : mem) (p : nat) : option (list string) :=
  elems m <$> (vars m !! p).

(** A slice variable is well formed when its window fits its array. *)
Definition wf_slice (m : mem) (s : slice) : Prop :=
  len s ≤ capacity s ∧ length (cells m s) = capacity s.

End Extension.

(** ** [SerializeSignal] of signal.go *)

Module Wire.

Open Scope Z_scope.

(** Go's [int] is 64 bits wide and wraps around. *)
Definition int_wrap (z : Z) : Z := (z + 2^63) mod 2^64 - 2^63.
Definition uint64 (z : Z) : Z := z mod 2^64.
Definition MaxInt : Z := 2^63 - 1.

(** Big-endian encoding of the low [n] bytes of [v], as
    [binary.BigEndian.PutUint32] and [PutUint64] write them. *)
Fixpoint be_bytes (n : nat) (v : Z) : list Z :=
  match n with
  | O => []
  | S n' => be_bytes n' (v / 256) ++ [v mod 256]
  end.

(** [binary.BigEndian.Uint64] and [Uint32]. *)
Definition be_value (bytes : list Z) : Z :=
  foldl (fun acc b => acc * 256 + b) 0 bytes.

Record SignalHeader := mkSignalHeader {
  Magic : Z;
  TypeHash : Z;
  Length : Z }.

Definition SIGNAL_SER_MAGIC : Z := 0x753a64de.
Definition SIGNAL_SER_HEADER_LENGTH : Z := 20.

(** What [SerializeSignal] asks of a signal: [signal.Serialize()], which
    yields the body or an error, and [Hash(signal.Type())]. *)
Record Signal := mkSignal {
  Serialize : list Z + string;
  Type_Hash : Z }.

(** The padding [pad_req] that [SerializeSignal] computes. *)
Definition pad_req (body_len block_size : Z) : Z :=
  if decide (block_size > 0) then
    let pad := int_wrap (block_size -
                 Z.rem (int_wrap (SIGNAL_SER_HEADER_LENGTH + body_len)) block_size) in
    if decide (pad ≠ block_size) then pad else 0
  else 0.

(** The header [SerializeSignal] writes in front of the body. *)
Definition header_of (signal : Signal) (signal_ser : list Z) (block_size : Z)
    : SignalHeader :=
  mkSignalHeader SIGNAL_SER_MAGIC (Type_Hash signal)
    (uint64 (int_wrap (Z.of_nat (length signal_ser)
                       + pad_req (Z.of_nat (length signal_ser)) block_size))).

(** [SerializeSignal(signal, block_size)]: [make] zero-fills, so what
    follows the copied body is [pad_req] zero bytes. *)
Definition SerializeSignal (signal : Signal) (block_size : Z) : list Z + string :=
  match Serialize signal with
  | inr err => inr err
  | inl signal_ser =>
      let pad := pad_req (Z.of_nat (length signal_ser)) block_size in
      let header := header_of signal signal_ser block_size in
      inl (be_bytes 4 (Magic header) ++ be_bytes 8 (TypeHash header)
           ++ be_bytes 8 (Length header)
           ++ signal_ser ++ replicate (Z.to_nat pad) 0)
  end.

(** The length field as [ParseSignal] reads it back:
    [binary.BigEndian.Uint64(data[12:20])]. *)
Definition read_Length (data : list Z) : Z :=
  be_value (take 8 (drop 12 data)).

Close Scope Z_scope.

End Wire.

(** ** Concrete runs used to exercise the statements below *)

Module Scenario.

Import Lockable.

(** An identifier stream: 100, 101, 102, ... *)
Definition ids (n : nat) : UUID := N.of_nat (100 + n).

Definition node : NodeID := 1%N.
Definition client : NodeID := 5%N.
Definition req : NodeID := 7%N.

Definition direct (id : UUID) : SignalHeader := mkSignalHeader id Direct.

(** The extension a handler leaves behind (the initial one if it panics). *)
Definition after (r : result Outcome) : LockableExt :=
  match r with
  | Ok (e, _, _, _) => e
  | Panic _ => NewLockableExt None
  end.

Definition lock_signal : Signal := LockSignal (direct 50%N) "lock".

(** A lockable without requirements, locked by [client]. *)
Definition locked_ext : LockableExt :=
  after (Process ids node client lock_signal (NewLockableExt None) 0).

(** A lockable with the one requirement [req], asked to lock by [client]:
    it is [Locking] and has sent [req] the lock signal 100. *)
Definition locking_ext : LockableExt :=
  after (Process ids node client lock_signal (NewLockableExt (Some [req])) 0).

(** [req] refuses: the lockable is now [AbortingLock]. *)
Definition refusal : Signal :=
  ErrorSignal (mkResponseHeader (direct 60%N) 100%N) "not_unlocked".

Definition aborting_ext : LockableExt :=
  after (Process ids node req refusal locking_ext 1).

(** A context with one node, [node], whose mailbox holds one message at
    most, and three messages for it. *)
Definition small_ctx : Router.Context :=
  Router.mkContext {[ node := Router.mkNode (Router.mkChan 1 []) ]} ∅.

Definition first_msg : Message := mkMessage client node lock_signal.
Definition second_msg : Message := mkMessage client node refusal.
Definition third_msg : Message := mkMessage req node lock_signal.

(** The same context once [first_msg] is queued: the mailbox is full. *)
Definition full_ctx : Router.Context :=
  Router.mkContext {[ node := Router.mkNode (Router.mkChan 1 [first_msg]) ]} ∅.

(** A message for the reserved zero id, and one for a node that is neither
    loaded nor stored. *)
Definition zero_msg : Message := mkMessage client ZeroID lock_signal.
Definition stray_msg : Message := mkMessage client req lock_signal.

(** A context in which [req] is not loaded but stored in the database,
    with a mailbox for one message; the same context once [req] is loaded
    and [stray_msg] is in its mailbox; and a context in which [req] is
    stored with an unbuffered mailbox. *)
Definition stored_ctx : Router.Context :=
  Router.mkContext ∅ {[ req := Router.Persisted 1 ]}.

Definition loaded_ctx : Router.Context :=
  Router.mkContext {[ req := Router.mkNode (Router.mkChan 1 [stray_msg]) ]}
                   {[ req := Router.Persisted 1 ]}.

Definition unbuffered_ctx : Router.Context :=
  Router.mkContext ∅ {[ req := Router.Persisted 0 ]}.

(** A caller holding [var changes Changes] (a nil slice) at address 0. *)
Definition caller_mem : Extension.mem :=
  Extension.mkMem ∅ {[ 0 := Extension.mkSlice 0 0 0 ]}.

(** A caller whose [Changes] shows "locking" and has room for more:
    a slice of length 1 on an array of 4 cells. *)
Definition roomy_mem : Extension.mem :=
  Extension.mkMem {[ 0 := ["locking"; ""; ""; ""] ]} {[ 0 := Extension.mkSlice 0 1 4 ]}.

(** A signal whose serialized body is the two bytes of the JSON text of an
    empty object. *)
Definition json_signal : Wire.Signal := Wire.mkSignal (inl [123; 125]%Z) 5%Z.

End Scenario.

(** ** Type registration: [RegisterNodeType], [RegisterExtension],
       [RegisterKind] and [RegisterType] of the context *)

Module Registry.

(** [reflect.Type] and [reflect.Kind] values are only compared; the type
    tags are 64-bit hashes. *)
Definition reflect_Type := N.
Definition reflect_Kind := N.
Definition ExtType := Z.
Definition NodeType := Z.
Definition SerializedType := Z.

(** A function value ([TypeSerialize], [TypeDeserialize]): registration
    stores it and tests it against nil, nothing more.  [None] is nil. *)
Definition func := option N.

Record ExtensionInfo := mkExtensionInfo {
  ei_Type : reflect_Type;
  ei_Data : option N }.

Record NodeInfo := mkNodeInfo {
  ni_Extensions : list ExtType }.

Record TypeInfo := mkTypeInfo {
  ti_Type : reflect_Type;
  ti_Serialize : func;
  ti_Deserialize : func }.

Record KindInfo := mkKindInfo {
  ki_Type : SerializedType;
  ki_Serialize : func;
  ki_Deserialize : func }.

(** The registries of the context (the policy and signal registries, which
    [RegisterPolicy] and [RegisterSignal] fill exactly as
    [RegisterExtension] fills the extension registry, are left out). *)
Record Context := mkContext {
  Extensions : gmap ExtType ExtensionInfo;
  ExtensionTypes : gmap reflect_Type ExtType;
  Nodes : gmap NodeType NodeInfo;
  Types : gmap SerializedType TypeInfo;
  TypeReflects : gmap reflect_Type SerializedType;
  Kinds : gmap reflect_Kind KindInfo;
  KindTypes : gmap SerializedType reflect_Kind }.

(** The errors [fmt.Errorf] builds, by cause. *)
Inductive error :=
| NodeTypeExists (node_type : NodeType)
| ExtensionNotInContext (node_type : NodeType) (extension : ExtType)
| DuplicateExtension (extension : ExtType)
| ExtensionExists (ext_type : ExtType)
| KindExists (kind : reflect_Kind)
| KindTypeRegistered (ctx_type : SerializedType) (kind : reflect_Kind)
| TypeExists (ctx_type : SerializedType)
| TypeReflectExists (reflect_type : reflect_Type)
| NoDeserialize
| NoSerialize.

#[global] Instance error_eq_dec : EqDecision error.
Proof. solve_decision. Defined.

(** The loop of [RegisterNodeType] over the extension list, with the
    [ext_found] map it fills. *)
Fixpoint check_extensions (ctx : Context) (node_type : NodeType)
    (ext_found : gmap ExtType bool) (extensions : list ExtType) : option error :=
  match extensions with
  | [] => None
  | extension :: rest =>
      match Extensions ctx !! extension with
      | None => Some (ExtensionNotInContext node_type extension)
      | Some _ =>
          match ext_found !! extension with
          | Some _ => Some (DuplicateExtension extension)
          | None => check_extensions ctx node_type (<[extension := true]> ext_found) rest
          end
      end
  end.

(** Each function returns the context as it leaves it and the error it
    returns ([None] for nil). *)
Definition RegisterNodeType (ctx : Context) (node_type : NodeType)
    (extensions : list ExtType) : Context * option error :=
  match Nodes ctx !! node_type with
  | Some _ => (ctx, Some (NodeTypeExists node_type))
  | None =>
      match check_extensions ctx node_type ∅ extensions with
      | Some err => (ctx, Some err)
      | None =>
          (mkContext (Extensions ctx) (ExtensionTypes ctx)
             (<[node_type := mkNodeInfo extensions]> (Nodes ctx))
             (Types ctx) (TypeReflects ctx) (Kinds ctx) (KindTypes ctx), None)
      end
  end.

Definition RegisterExtension (ctx : Context) (reflect_type : reflect_Type)
    (ext_type : ExtType) (data : option N) : Context * option error :=
  match Extensions ctx !! ext_type with
  | Some _ => (ctx, Some (ExtensionExists ext_type))
  | None =>
      (mkContext (<[ext_type := mkExtensionInfo reflect_type data]> (Extensions ctx))
         (<[reflect_type := ext_type]> (ExtensionTypes ctx))
         (Nodes ctx) (Types ctx) (TypeReflects ctx) (Kinds ctx) (KindTypes ctx), None)
  end.

Definition RegisterKind (ctx : Context) (kind : reflect_Kind) (ctx_type : SerializedType)
    (serialize deserialize : func) : Context * option error :=
  match Kinds ctx !! kind with
  | Some _ => (ctx, Some (KindExists kind))
  | None =>
      match KindTypes ctx !! ctx_type with
      | Some _ => (ctx, Some (KindTypeRegistered ctx_type kind))
      | None =>
          match deserialize, serialize with
          | None, _ => (ctx, Some NoDeserialize)
          | Some _, None => (ctx, Some NoSerialize)
          | Some _, Some _ =>
              (mkContext (Extensions ctx) (ExtensionTypes ctx) (Nodes ctx)
                 (Types ctx) (TypeReflects ctx)
                 (<[kind := mkKindInfo ctx_type serialize deserialize]> (Kinds ctx))
                 (<[ctx_type := kind]> (KindTypes ctx)), None)
          end
      end
  end.

Definition RegisterType (ctx : Context) (reflect_type : reflect_Type)
    (ctx_type : SerializedType) (serialize deserialize : func) : Context * option error :=
  match Types ctx !! ctx_type with
  | Some _ => (ctx, Some (TypeExists ctx_type))
  | None =>
      match TypeReflects ctx !! reflect_type with
      | Some _ => (ctx, Some (TypeReflectExists reflect_type))
      | None =>
          match deserialize, serialize with
          | None, _ => (ctx, Some NoDeserialize)
          | Some _, None => (ctx, Some NoSerialize)
          | Some _, Some _ =>
              (mkContext (Extensions ctx) (ExtensionTypes ctx) (Nodes ctx)
                 (<[ctx_type := mkTypeInfo reflect_type serialize deserialize]> (Types ctx))
                 (<[reflect_type := ctx_type]> (TypeReflects ctx))
                 (Kinds ctx) (KindTypes ctx), None)
          end
      end
  end.

(** The context [NewContext] starts from: every registry empty. *)
Definition empty_Context : Context := mkContext ∅ ∅ ∅ ∅ ∅ ∅ ∅.

(** One registration request, and a run of them that goes on after
    errors (as a caller that logs and continues would). *)
Inductive request :=
| ReqKind (kind : reflect_Kind) (ctx_type : SerializedType) (serialize deserialize : func)
| ReqType (reflect_type : reflect_Type) (ctx_type : SerializedType)
          (serialize deserialize : func)
| ReqExtension (reflect_type : reflect_Type) (ext_type : ExtType) (data : option N)
| ReqNodeType (node_type : NodeType) (extensions : list ExtType).

Definition register (ctx : Context) (r : request) : Context * option error :=
  match r with
  | ReqKind kind ctx_type s d => RegisterKind ctx kind ctx_type s d
  | ReqType reflect_type ctx_type s d => RegisterType ctx reflect_type ctx_type s d
  | ReqExtension reflect_type ext_type data => RegisterExtension ctx reflect_type ext_type data
  | ReqNodeType node_type extensions => RegisterNodeType ctx node_type extensions
  end.

Definition register_all (ctx : Context) (rs : list request) : Context :=
  foldl (fun c r => (register c r).1) ctx rs.

(** What [serializeValue] and [DeserializeValue] rely on: the kind table
    and its reverse index agree, and no registered function is nil. *)
Record consistent (ctx : Context) : Prop := mkConsistent {
  kinds_indexed : ∀ kind info, Kinds ctx !! kind = Some info →
                    KindTypes ctx !! ki_Type info = Some kind;
  kind_types_indexed : ∀ ctx_type kind, KindTypes ctx !! ctx_type = Some kind →
                    ∃ info, Kinds ctx !! kind = Some info ∧ ki_Type info = ctx_type;
  kinds_callable : ∀ kind info, Kinds ctx !! kind = Some info →
                    is_Some (ki_Serialize info) ∧ is_Some (ki_Deserialize info);
  types_indexed : ∀ ctx_type info, Types ctx !! ctx_type = Some info →
                    TypeReflects ctx !! ti_Type info = Some ctx_type;
  type_reflects_indexed : ∀ reflect_type ctx_type,
                    TypeReflects ctx !! reflect_type = Some ctx_type →
                    ∃ info, Types ctx !! ctx_type = Some info ∧ ti_Type info = reflect_type;
  types_callable : ∀ ctx_type info, Types ctx !! ctx_type = Some info →
                    is_Some (ti_Serialize info) ∧ is_Some (ti_Deserialize info);
  extension_types_indexed : ∀ reflect_type ext_type,
                    ExtensionTypes ctx !! reflect_type = Some ext_type →
                    ∃ info, Extensions ctx !! ext_type = Some info
                            ∧ ei_Type info = reflect_type;
  node_types_registered : ∀ node_type info, Nodes ctx !! node_type = Some info →
                    NoDup (ni_Extensions info)
                    ∧ Forall (λ e, is_Some (Extensions ctx !! e)) (ni_Extensions info) }.

End Registry.

(** ** [SerializedValue]: [PopType], [PopData], [MarshalBinary] and
       [ParseSerializedValue] *)

Module Serialized.

Import Wire.
Open Scope Z_scope.

(** A Go slice as far as this code can tell slices apart: [None] is the
    nil slice, [Some l] a slice that is not nil and shows the elements [l]
    (there may be none).  Capacities are taken equal to lengths. *)
Definition contents {A : Type} (s : option (list A)) : list A := default [] s.
Definition len {A : Type} (s : option (list A)) : Z := Z.of_nat (length (contents s)).

Record SerializedValue := mkSerializedValue {
  TypeStack : option (list Z);
  Data : option (list Z) }.

(** [data[lo:hi]] on a slice that is not nil and whose capacity is its
    length: a panic when the bounds are out of range. *)
Definition slice (data : list Z) (lo hi : Z) : result (list Z) :=
  if decide (0 ≤ lo ∧ lo ≤ hi ∧ hi ≤ Z.of_nat (length data))
  then Ok (take (Z.to_nat (hi - lo)) (drop (Z.to_nat lo) data))
  else Panic "slice bounds out of range".

(** [s[lo:hi]] on any slice: the same bounds check; a slice of the nil
    slice is nil and a slice of any other slice is not. *)
Definition reslice (s : option (list Z)) (lo hi : Z) : result (option (list Z)) :=
  match slice (contents s) lo hi with
  | Panic msg => Panic msg
  | Ok shown => Ok ((fun _ => shown) <$> s)
  end.

(** [value.PopType()]: the type, the value left, and the error.  A type
    stack with an element is not nil, and neither is its tail. *)
Definition PopType (value : SerializedValue) : Z * SerializedValue * option string :=
  match contents (TypeStack value) with
  | [] => (0, value, Some "No elements in TypeStack")
  | ctx_type :: rest => (ctx_type, mkSerializedValue (Some rest) (Data value), None)
  end.

(** [value.PopData(n)]: [value.Data[0:n]], the value with
    [value.Data[n:]], and the error; with the error the data returned is
    nil. *)
Definition PopData (value : SerializedValue) (n : Z)
    : result (option (list Z) * SerializedValue * option string) :=
  if decide (len (Data value) < n)
  then Ok (None, value, Some "Not enough data")
  else
    match reslice (Data value) 0 n with
    | Panic msg => Panic msg
    | Ok data =>
        match reslice (Data value) n (len (Data value)) with
        | Panic msg => Panic msg
        | Ok others => Ok (data, mkSerializedValue (TypeStack value) others, None)
        end
    end.

(** [value.SerializedSize()] *)
Definition SerializedSize (value : SerializedValue) : Z :=
  uint64 (int_wrap ((len (TypeStack value) + 2) * 8)).

(** [value.MarshalBinary()]: the two counts, the types, then the data.
    The slice returned is never nil: it has 16 bytes at least. *)
Definition MarshalBinary (value : SerializedValue) : list Z :=
  be_bytes 8 (uint64 (len (TypeStack value)))
  ++ be_bytes 8 (uint64 (len (Data value)))
  ++ concat (map (fun t => be_bytes 8 t) (contents (TypeStack value)))
  ++ contents (Data value).

(** The loop of [ParseSerializedValue] that reads the type stack: entry
    [i] is [data[(i+2)*8:(i+3)*8]]. *)
Fixpoint read_types (data : list Z) (i : Z) (n : nat) : result (list Z) :=
  match n with
  | O => Ok []
  | S n' =>
      match slice data ((i + 2) * 8) ((i + 3) * 8) with
      | Panic msg => Panic msg
      | Ok bytes =>
          match read_types data (i + 1) n' with
          | Panic msg => Panic msg
          | Ok types => Ok (be_value bytes :: types)
          end
      end
  end.

(** [make([]T, n)] panics on a negative length; what it makes is not nil,
    for [n = 0] too. *)
Definition make_types (data : list Z) (num_types : Z) : result (list Z) :=
  if decide (num_types < 0) then Panic "makeslice: len out of range"
  else read_types data 0 (Z.to_nat num_types).

(** [ParseSerializedValue(data)] of the revision that returns the bytes
    left over: the value, the rest, or an error; or a panic.  The input is
    given by the bytes it shows: a nil input and an empty one both have
    fewer than 8 bytes, and past that check [data] is not nil, so that the
    type stack (from [make]), the data and the rest (slices of [data]) are
    never nil. *)
Definition ParseSerializedValue (data : list Z)
    : result (SerializedValue * option (list Z) + string) :=
  if decide (Z.of_nat (length data) < 8)
  then Ok (inr "SerializedValue required to have at least 8 bytes when serialized")
  else
    match slice data 0 8, slice data 8 16 with
    | Panic msg, _ | _, Panic msg => Panic msg
    | Ok count_bytes, Ok size_bytes =>
        let num_types := int_wrap (be_value count_bytes) in
        let data_size := int_wrap (be_value size_bytes) in
        match make_types data num_types with
        | Panic msg => Panic msg
        | Ok type_stack =>
            let types_end := int_wrap (8 * (num_types + 2)) in
            let data_end := int_wrap (types_end + data_size) in
            match slice data types_end data_end,
                  slice data data_end (Z.of_nat (length data)) with
            | Panic msg, _ | _, Panic msg => Panic msg
            | Ok value_data, Ok rest =>
                Ok (inl (mkSerializedValue (Some type_stack) (Some value_data), Some rest))
            end
        end
    end.

(** [ParseSerializedValue(ctx, data)] of the context's revision: it takes
    the data from [8*(num_types+1)] on and returns no rest. *)
Definition ParseSerializedValue_ctx (data : list Z) : result (SerializedValue + string) :=
  if decide (Z.of_nat (length data) < 8)
  then Ok (inr "SerializedValue required to have at least 8 bytes when serialized")
  else
    match slice data 0 8, slice data 8 16 with
    | Panic msg, _ | _, Panic msg => Panic msg
    | Ok count_bytes, Ok size_bytes =>
        let num_types := int_wrap (be_value count_bytes) in
        let data_size := int_wrap (be_value size_bytes) in
        match make_types data num_types with
        | Panic msg => Panic msg
        | Ok type_stack =>
            let types_end := int_wrap (8 * (num_types + 1)) in
            match slice data types_end (int_wrap (types_end + data_size)) with
            | Panic msg => Panic msg
            | Ok value_data =>
                Ok (inl (mkSerializedValue (Some type_stack) (Some value_data)))
            end
        end
    end.

(** A value as Go holds it: its types are 64-bit and its marshalled size
    fits an [int]. *)
Definition well_sized (value : SerializedValue) : Prop :=
  Forall (fun t => 0 ≤ t < 2 ^ 64) (contents (TypeStack value))
  ∧ 8 * (len (TypeStack value) + 2) + len (Data value) ≤ MaxInt.

Close Scope Z_scope.

End Serialized.

(** ** [ParseSignal] of signal.go *)

Module WireParse.

Import Wire.
Open Scope Z_scope.

Inductive parse_error :=
| ShorterThanHeader
| MagicMismatch (magic : Z)
| LengthMismatch (length left : Z)
| UnknownSignalType (type_hash : Z)
| LoadError (msg : string).

(** A registered signal type: its [Load] function, from the bytes after
    the header to a signal of type [S] or an error. *)
Record SignalInfo (S : Type) := mkSignalInfo {
  Load : list Z → S + string }.
Arguments mkSignalInfo {S} Load.
Arguments Load {S} s data.

(** [ParseSignal(ctx, data)], with [ctx.Signals] as the context. *)
Definition ParseSignal {S : Type} (Signals : gmap Z (SignalInfo S)) (data : list Z)
    : S + parse_error :=
  if decide (Z.of_nat (length data) < SIGNAL_SER_HEADER_LENGTH) then inr ShorterThanHeader
  else
    let header :=
      mkSignalHeader (be_value (take 4 data))
                     (be_value (take 8 (drop 4 data)))
                     (be_value (take 8 (drop 12 data))) in
    if decide (Magic header ≠ SIGNAL_SER_MAGIC) then inr (MagicMismatch (Magic header))
    else
      let left := Z.of_nat (length data) - SIGNAL_SER_HEADER_LENGTH in
      if decide (int_wrap (Length header) ≠ left)
      then inr (LengthMismatch (Length header) left)
      else
        match Signals !! TypeHash header with
        | None => inr (UnknownSignalType (TypeHash header))
        | Some signal_def =>
            match Load signal_def (drop 20 data) with
            | inr err => inr (LoadError err)
            | inl signal => inl signal
            end
        end.

Close Scope Z_scope.

End WireParse.

(** ** The listener extension *)

Module Listener.

(** [Chan chan Signal] with its capacity. *)
Record ListenerExt := mkListenerExt {
  Buffer : Z;
  Cap : nat;
  Queue : list Signal }.

(** [NewListenerExt(buffer)]: [make(chan Signal, buffer)] panics on a
    negative size. *)
Definition NewListenerExt (buffer : Z) : result ListenerExt :=
  if decide (buffer < 0)%Z then Panic "makechan: size out of range"
  else Ok (mkListenerExt buffer (Z.to_nat buffer) []).

(** [ListenerExt.Process]: send if the channel has room, else log the
    overflow and drop the signal; no message is returned.  No receiver
    runs during the call in this model. *)
Definition Process (ext : ListenerExt) (node source : NodeID) (signal : Signal)
    : ListenerExt * Messages :=
  if decide (length (Queue ext) < Cap ext)
  then (mkListenerExt (Buffer ext) (Cap ext) (Queue ext ++ [signal]), [])
  else (ext, []).

(** The extension after the node has dispatched the given signals to it,
    one after the other. *)
Definition Process_all (ext : ListenerExt) (node : NodeID)
    (signals : list (NodeID * Signal)) : ListenerExt :=
  foldl (fun e s => (Process e node s.1 s.2).1) ext signals.

End Listener.

(** ** The database record of a node: node.go *)

Module NodeDB.

Import Wire.
Open Scope Z_scope.

Definition NODE_DB_MAGIC : Z := 0x2491df14.
Definition NODE_DB_HEADER_LEN : Z := 12.

Record DBHeader := mkDBHeader {
  Magic : Z;
  TypeHash : Z }.

(** [header.Serialize()] *)
Definition DBHeader_Serialize (header : DBHeader) : result (list Z) :=
  if decide (Magic header ≠ NODE_DB_MAGIC)
  then Panic "Serializing header with invalid magic"
  else Ok (be_bytes 4 (Magic header) ++ be_bytes 8 (TypeHash header)).

(** What the database code asks of a node: [node.Serialize()] and
    [node.Type().Hash()]. *)
Record Node := mkNode {
  Serialize : list Z + string;
  Type_Hash : Z }.

Definition NewDBHeader (node : Node) : DBHeader :=
  mkDBHeader NODE_DB_MAGIC (Type_Hash node).

(** [getNodeBytes(ctx, node)]; a nil node is [None]. *)
Definition getNodeBytes (node : option Node) : result (list Z + string) :=
  match node with
  | None => Ok (inr "DB_SERIALIZE_ERROR: cannot serialize nil node")
  | Some node =>
      match Serialize node with
      | inr err => Ok (inr ("DB_SERIALIZE_ERROR: " ++ err)%string)
      | inl ser =>
          match DBHeader_Serialize (NewDBHeader node) with
          | Panic msg => Panic msg
          | Ok header => Ok (inl (header ++ ser))
          end
      end
  end.

(** The database: the bytes stored under each node id. *)
Definition DB := gmap string (list Z).

(** [WriteNode(ctx, node)] for a node with the given id: the database it
    leaves and the error it returns. *)
Definition WriteNode (db : DB) (id : string) (node : option Node)
    : result (DB * option string) :=
  match getNodeBytes node with
  | Panic msg => Panic msg
  | Ok (inr err) => Ok (db, Some err)
  | Ok (inl node_bytes) => Ok (<[id := node_bytes]> db, None)
  end.

Inductive read_error :=
| KeyNotFound
| HeaderTooShort (len : Z)
| InvalidMagic (magic : Z).

(** [readNodeBytes(ctx, id)]: the type hash and the bytes after the
    header. *)
Definition readNodeBytes (db : DB) (id : string) : Z * list Z + read_error :=
  match db !! id with
  | None => inr KeyNotFound
  | Some bytes =>
      if decide (Z.of_nat (length bytes) < NODE_DB_HEADER_LEN)
      then inr (HeaderTooShort (Z.of_nat (length bytes)))
      else
        let header := mkDBHeader (be_value (take 4 bytes)) (be_value (take 8 (drop 4 bytes))) in
        if decide (Magic header ≠ NODE_DB_MAGIC) then inr (InvalidMagic (Magic header))
        else inl (TypeHash header, drop 12 bytes)
  end.

Close Scope Z_scope.

End NodeDB.

(** ** More concrete runs *)

Module Runs.

Import Lockable Scenario.

(** A lockable with the requirements 7 and 8, asked to lock by [client],
    and the same after requirement 8 has acknowledged. *)
Definition two_reqs : LockableExt := NewLockableExt (Some [7%N; 8%N]).

Definition two_locking : LockableExt :=
  after (Process ids node client lock_signal two_reqs 0).

Definition ack (id req_id : UUID) : ResponseHeader := mkResponseHeader (direct id) req_id.

Definition one_locked : LockableExt :=
  after (Process ids node 8%N (SuccessSignal (ack 70%N 100%N)) two_locking 2).

Definition both_locked : LockableExt :=
  after (Process ids node 7%N (SuccessSignal (ack 71%N 101%N)) one_locked 2).

(** A value with two types and three data bytes, and the zero value
    [SerializedValue{}], whose slices are nil. *)
Definition sample_value : Serialized.SerializedValue :=
  Serialized.mkSerializedValue (Some [5; 70000]%Z) (Some [1; 2; 3]%Z).

Definition zero_value : Serialized.SerializedValue :=
  Serialized.mkSerializedValue None None.

(** A signal registry that knows type 5 and loads any bytes as they are. *)
Definition echo_signals : gmap Z (WireParse.SignalInfo (list Z)) :=
  {[ 5%Z := WireParse.mkSignalInfo (fun data => inl data) ]}.

(** A listener with room for two signals. *)
Definition small_listener : Listener.ListenerExt := Listener.mkListenerExt 2 2 [].

(** A stored node, and the database that holds it under the key "n". *)
Definition stored_node : NodeDB.Node := NodeDB.mkNode (inl [9; 8; 7]%Z) 42%Z.

Definition stored_db : NodeDB.DB :=
  match NodeDB.WriteNode ∅ "n" (Some stored_node) with
  | Ok (db, _) => db
  | Panic _ => ∅
  end.

(** [json_signal] on the wire, padded to blocks of 16 bytes. *)
Definition json_wire : list Z :=
  match Wire.SerializeSignal json_signal 16 with
  | inl ser => ser
  | inr _ => []
  end.

(** A lock signal on its way down to the requirements. *)
Definition down_signal : Signal := LockSignal (mkSignalHeader 52%N Down) "lock".

(** A context with the extension 3 registered. *)
Definition one_extension : Registry.Context :=
  (Registry.RegisterExtension Registry.empty_Context 30%N 3%Z None).1.

End Runs.

(** * Facts about the lockable extension *)

Section LockableFacts.

Import Lockable.

Variable uuid_New : nat -> UUID.

Implicit Types (m : gmap NodeID ReqInfo) (ext : LockableExt) (l : list (NodeID * ReqInfo)).

(** ** The loops *)

Lemma foldl_step {A B} (f : A → B → A) (a : A) (x : B) (xs : list B) :
  foldl f a (x :: xs) = foldl f (f a x) xs.
Proof. reflexivity. Qed.

Lemma fanout_step_eq node action st m ms g (e : NodeID * ReqInfo) :
  fanout_step uuid_New node action st (m, ms, g) e =
  (<[e.1 := mkReqInfo st (uuid_New g)]> m,
   ms ++ [mkMessage node e.1 (LockSignal (mkSignalHeader (uuid_New g) Direct) action)],
   S g).
Proof. reflexivity. Qed.

Lemma foldl_fanout_states node action st l :
  ∀ m ms g m' ms' g',
    foldl (fanout_step uuid_New node action st) (m, ms, g) l = (m', ms', g') →
    ∀ k v, m' !! k = Some v →
      (k ∈ l.*1 ∧ info_State v = st) ∨ ((k ∉ l.*1) ∧ m !! k = Some v).
Proof.
  induction l as [|e l IH]; intros m ms g m' ms' g' Hf k v Hk.
  - simpl in Hf. inversion Hf; subst. right. split; [apply not_elem_of_nil | done].
  - rewrite foldl_step, fanout_step_eq in Hf.
    destruct (IH _ _ _ _ _ _ Hf k v Hk) as [[Hin Hst] | [Hnin Hm]].
    + left. split; [|done]. rewrite fmap_cons. by apply list_elem_of_further.
    + destruct (decide (e.1 = k)) as [Heq|Hne].
      * rewrite Heq, lookup_insert_eq in Hm. inversion Hm; subst v. left.
        split; [rewrite fmap_cons, <- Heq; apply list_elem_of_here | done].
      * rewrite lookup_insert_ne in Hm by done. right. split; [|done].
        rewrite fmap_cons. intros Hin. apply elem_of_cons in Hin as [Heq|Hin]; [|done].
        by apply Hne.
Qed.

Lemma fanout_all node action st m ms g m' ms' g' :
  fanout uuid_New node action st m ms g = (m', ms', g') →
  map_Forall (λ _ v, info_State v = st) m'.
Proof.
  intros Hf k v Hk. unfold fanout in Hf.
  destruct (foldl_fanout_states _ _ _ _ _ _ _ _ _ _ Hf k v Hk) as [[_ ?]|[Hnin Hm]]; [done|].
  exfalso. apply Hnin. apply list_elem_of_fmap. exists (k, v). split; [done|].
  by apply elem_of_map_to_list.
Qed.

Lemma abort_step_eq node m ms g (e : NodeID * ReqInfo) :
  abort_step uuid_New node (m, ms, g) e =
  if decide (info_State e.2 = Locked)
  then (<[e.1 := mkReqInfo Unlocking (uuid_New g)]> m,
        ms ++ [mkMessage node e.1 (LockSignal (mkSignalHeader (uuid_New g) Direct) "unlock")],
        S g)
  else (m, ms, g).
Proof. reflexivity. Qed.

Lemma foldl_abort_states node l :
  ∀ m ms g m' ms' g',
    NoDup l.*1 →
    (∀ k v, (k, v) ∈ l → m !! k = Some v) →
    foldl (abort_step uuid_New node) (m, ms, g) l = (m', ms', g') →
    ∀ k v, m' !! k = Some v →
      info_State v = Unlocking ∨ (m !! k = Some v ∧ (k ∈ l.*1 → info_State v ≠ Locked)).
Proof.
  induction l as [|[k0 v0] l IH]; intros m ms g m' ms' g' Hnd Hag Hf k v Hk.
  - simpl in Hf. inversion Hf; subst. right. split; [done|].
    intros Hin. by apply elem_of_nil in Hin.
  - rewrite fmap_cons in Hnd. apply NoDup_cons in Hnd as [Hk0 Hnd].
    rewrite foldl_step, abort_step_eq in Hf. simpl in Hf.
    destruct (decide (info_State v0 = Locked)) as [Hl|Hl].
    + simpl in Hf.
      assert (Hag' : ∀ k v, (k, v) ∈ l →
                (<[k0 := mkReqInfo Unlocking (uuid_New g)]> m) !! k = Some v).
      { intros k1 v1 Hin. rewrite lookup_insert_ne.
        - apply Hag. by apply list_elem_of_further.
        - intros ->. apply Hk0. apply list_elem_of_fmap. by exists (k1, v1). }
      destruct (IH _ _ _ _ _ _ Hnd Hag' Hf k v Hk) as [?|[Hm Hn]]; [by left|].
      destruct (decide (k0 = k)) as [->|Hne].
      * rewrite lookup_insert_eq in Hm. inversion Hm; subst. by left.
      * rewrite lookup_insert_ne in Hm by done. right. split; [done|].
        rewrite fmap_cons. intros Hin. apply elem_of_cons in Hin as [Heq|Hin]; [done|].
        by apply Hn.
    + assert (Hag' : ∀ k v, (k, v) ∈ l → m !! k = Some v).
      { intros k1 v1 Hin. apply Hag. by apply list_elem_of_further. }
      destruct (IH _ _ _ _ _ _ Hnd Hag' Hf k v Hk) as [?|[Hm Hn]]; [by left|].
      right. split; [done|]. rewrite fmap_cons. intros Hin.
      apply elem_of_cons in Hin as [Heq|Hin]; [|by apply Hn].
      simpl in Heq. subst k.
      specialize (Hag k0 v0 (list_elem_of_here _ _)). congruence.
Qed.

Lemma abort_fanout_not_locked node m ms g m' ms' g' :
  abort_fanout uuid_New node m ms g = (m', ms', g') →
  map_Forall (λ _ v, info_State v ≠ Locked) m'.
Proof.
  intros Hf k v Hk. unfold abort_fanout in Hf.
  destruct (foldl_abort_states node (map_to_list m) m ms g m' ms' g') with (k := k) (v := v)
    as [Hu|[Hm Hn]]; try done.
  - apply NoDup_fst_map_to_list.
  - intros k1 v1 Hin. by apply elem_of_map_to_list.
  - congruence.
  - apply Hn. apply list_elem_of_fmap. exists (k, v). split; [done|].
    by apply elem_of_map_to_list.
Qed.

Lemma foldl_count_step s l :
  ∀ a b, foldl (count_step s) (a, b) l =
         (a + length l, b + length (filter (λ e, info_State e.2 = s) l)).
Proof.
  induction l as [|e l IH]; intros a b; simpl.
  - f_equal; lia.
  - unfold count_step at 2. simpl. rewrite IH. rewrite filter_cons.
    destruct (decide (info_State e.2 = s)); simpl; f_equal; lia.
Qed.

Lemma filter_full_Forall {A} (P : A → Prop) `{∀ x, Decision (P x)} (l : list A) :
  length (filter P l) = length l → Forall P l.
Proof.
  induction l as [|x l IH]; intros Hlen; [constructor|].
  rewrite filter_cons in Hlen. destruct (decide (P x)).
  - constructor; [done|]. apply IH. simpl in Hlen. lia.
  - pose proof (length_filter P l). simpl in Hlen. lia.
Qed.

Lemma count_reqs_all s m n k :
  count_reqs s m = (n, k) → k = n → map_Forall (λ _ v, info_State v = s) m.
Proof.
  unfold count_reqs. rewrite foldl_count_step. intros Heq ->.
  inversion Heq as [[Hn Hk]]. clear Heq.
  assert (Hall : Forall (λ e : NodeID * ReqInfo, info_State e.2 = s) (map_to_list m)).
  { apply (filter_full_Forall _ _). lia. }
  intros i v Hi. rewrite Forall_forall in Hall.
  apply (Hall (i, v)). by apply elem_of_map_to_list.
Qed.

Lemma size_zero_Forall m (P : NodeID → ReqInfo → Prop) : size m = 0 → map_Forall P m.
Proof. intros H%map_size_empty_iff. subst. apply map_Forall_empty. Qed.

Lemma map_Forall_weaken m (P Q : ReqInfo → Prop) :
  (∀ v, P v → Q v) → map_Forall (λ _ v, P v) m → map_Forall (λ _ v, Q v) m.
Proof. intros HPQ H k v Hk. apply HPQ. by apply (H k). Qed.

(** ** The invariant is kept by every handler *)

Ltac inv_ok H := injection H as <- <- <- <-.
Ltac inv_fields :=
  split; cbn; try (intros; intuition (eauto || congruence || discriminate));
  try (split; [intros [? ?]; congruence | intros [?|?]; congruence]).
Ltac weaken_with Hf :=
  eapply map_Forall_weaken; [|exact Hf]; cbn; intros; intuition congruence.

Lemma NewLockableExt_Inv requirements : Inv (NewLockableExt requirements).
Proof.
  inv_fields. destruct requirements as [ids|]; cbn; [|apply map_Forall_empty].
  assert (Hgen : ∀ m, map_Forall (λ _ v, info_State v = Unlocked) m →
            map_Forall (λ _ v, info_State v = Unlocked)
              (foldl (λ (m : gmap NodeID ReqInfo) id,
                        <[id := mkReqInfo Unlocked ZeroUUID]> m) m ids)).
  { induction ids as [|id ids IH]; intros m Hm0; cbn; [done|].
    apply IH. by apply map_Forall_insert_2. }
  apply Hgen, map_Forall_empty.
Qed.

Lemma HandleLockSignal_Inv node source h state ext g ext' ms cs g' :
  Inv ext →
  HandleLockSignal uuid_New node source h state ext g = Ok (ext', ms, cs, g') →
  Inv ext'.
Proof.
  destruct ext as [st rid ow po pid rq]. intros HI H. pose proof HI as [Hr Ho Hp Hu Hm].
  unfold HandleLockSignal in H. cbn in *.
  repeat case_decide; subst; cbn in *.
  - inv_ok H. inv_fields. by apply size_zero_Forall.
  - destruct (fanout _ _ _ _ _ _ _) as [[m' ms'] g''] eqn:Hf. inv_ok H.
    apply fanout_all in Hf. inv_fields. weaken_with Hf.
  - inv_ok H. exact HI.
  - inv_ok H. inv_fields. by apply size_zero_Forall.
  - destruct ow as [owner|]; [|discriminate]. case_decide.
    + destruct (fanout _ _ _ _ _ _ _) as [[m' ms'] g''] eqn:Hf. inv_ok H.
      apply fanout_all in Hf. inv_fields. weaken_with Hf.
    + inv_ok H. exact HI.
  - inv_ok H. exact HI.
  - inv_ok H. exact HI.
Qed.

Lemma HandleErrorSignal_Inv node source h str ext g ext' ms cs g' :
  Inv ext →
  HandleErrorSignal uuid_New node source h str ext g = Ok (ext', ms, cs, g') →
  Inv ext'.
Proof.
  destruct ext as [st rid ow po pid rq]. intros HI H. pose proof HI as [Hr Ho Hp Hu Hm].
  unfold HandleErrorSignal in H. cbn in *.
  repeat case_decide; subst; cbn in *; try discriminate; try (inv_ok H; exact HI).
  destruct rq as [m|]; [|discriminate].
  destruct (abort_fanout _ _ _ _ _) as [[m' ms'] g''] eqn:Hf. inv_ok H.
  apply abort_fanout_not_locked in Hf. inv_fields.
Qed.

Lemma HandleLinkSignal_Inv node source h id action ext g ext' ms cs g' :
  Inv ext →
  HandleLinkSignal uuid_New node source h id action ext g = Ok (ext', ms, cs, g') →
  Inv ext'.
Proof.
  destruct ext as [st rid ow po pid rq]. intros HI H. pose proof HI as [Hr Ho Hp Hu Hm].
  unfold HandleLinkSignal in H. cbn in *.
  repeat case_decide; subst; cbn in *; try (inv_ok H; exact HI).
  - destruct (default ∅ rq !! id) eqn:Hl; inv_ok H; [exact HI|].
    inv_fields. by apply map_Forall_insert_2.
  - destruct (default ∅ rq !! id) eqn:Hl; inv_ok H; [|exact HI].
    inv_fields. destruct rq as [m|]; cbn in *; [|done].
    by apply map_Forall_delete.
Qed.

Lemma HandleSuccessSignal_Inv node source h ext g ext' ms cs g' :
  Inv ext →
  HandleSuccessSignal uuid_New node source h ext g = Ok (ext', ms, cs, g') →
  Inv ext'.
Proof.
  destruct ext as [st rid ow po pid rq]. intros HI H. pose proof HI as [Hr Ho Hp Hu Hm].
  unfold HandleSuccessSignal, store_req in H. cbn in *.
  case_decide; [inv_ok H; exact HI|].
  destruct (default ∅ rq !! source) as [[ist imsg]|] eqn:Hs; [|inv_ok H; exact HI].
  pose proof (Hr _ _ Hs) as Hal. cbn in Hal, H.
  case_decide; [inv_ok H; exact HI|].
  destruct (decide (ist = Locking)) as [->|Hn1].
  { destruct (decide (st = Locking)) as [->|Hn2].
    - (* a lock acknowledged while locking *)
      destruct (count_reqs _ _) as [n k] eqn:Hc. case_decide.
      + apply count_reqs_all in Hc; [|done].
        destruct po as [owner|]; [|discriminate]. inv_ok H. inv_fields.
      + inv_ok H. inv_fields. apply map_Forall_insert_2; [by right|done].
    - destruct (decide (st = AbortingLock)) as [->|Hn3]; [|inv_ok H; exact HI].
      (* a lock acknowledged while aborting *)
      inv_ok H. inv_fields. by apply map_Forall_insert_2. }
  destruct (decide (ist = Unlocking)) as [->|Hn2]; [|inv_ok H; exact HI].
  destruct (count_reqs _ _) as [n k] eqn:Hc.
  destruct (decide (st = Unlocking)) as [->|Hn3].
  { (* an unlock acknowledged while unlocking *)
    case_decide.
    - apply count_reqs_all in Hc; [|done].
      destruct ow as [prev|]; [|discriminate]. inv_ok H.
      rewrite Hu by done. inv_fields.
    - inv_ok H. inv_fields. apply map_Forall_insert_2; [by right|done]. }
  destruct (decide (st = AbortingLock)) as [->|Hn4].
  { (* an unlock acknowledged while aborting *)
    case_decide.
    - apply count_reqs_all in Hc; [|done].
      destruct rid as [req_id|]; [|discriminate].
      destruct po as [pending|]; [|discriminate]. inv_ok H.
      inv_fields.
    - inv_ok H. inv_fields. by apply map_Forall_insert_2. }
  (* no requirement is unlocking in the other states *)
  destruct st; cbn in Hal; try congruence; destruct Hal; congruence.
Qed.

Lemma Process_Inv node source signal ext g ext' ms cs g' :
  Inv ext →
  Process uuid_New node source signal ext g = Ok (ext', ms, cs, g') →
  Inv ext'.
Proof.
  intros HI H. unfold Process in H.
  destruct (Direction signal).
  - destruct (Owner ext); [case_decide|]; by inv_ok H.
  - by inv_ok H.
  - destruct signal.
    + by eapply HandleLinkSignal_Inv.
    + by eapply HandleLockSignal_Inv.
    + by eapply HandleErrorSignal_Inv.
    + by eapply HandleSuccessSignal_Inv.
    + by inv_ok H.
Qed.

Lemma reachable_Inv node ext : reachable uuid_New node ext → Inv ext.
Proof.
  induction 1 as [requirements | ext source signal g ext' ms cs g' _ IH Hstep].
  - apply NewLockableExt_Inv.
  - by eapply Process_Inv.
Qed.

(** ** Where the handlers can panic

    In a state that satisfies the invariant the only panic left is the
    explicit one of [HandleErrorSignal] on "not_locked". *)
Lemma Process_no_panic node source signal ext g :
  Inv ext →
  (∀ h, signal ≠ ErrorSignal h "not_locked") →
  is_Ok (Process uuid_New node source signal ext g).
Proof.
  destruct ext as [st rid ow po pid rq]. intros [Hr Ho Hp Hu Hm] Hne.
  unfold Process. destruct (Direction signal); cbn in *.
  - destruct ow; [case_decide|]; done.
  - done.
  - destruct signal as [h id action | h state | h err | h | h]; cbn.
    + unfold HandleLinkSignal; cbn.
      repeat case_decide; try done; destruct (default ∅ rq !! id); done.
    + unfold HandleLockSignal; cbn. repeat case_decide; subst; try done.
      * by destruct (fanout _ _ _ _ _ _ _) as [[m' ms'] g''].
      * destruct ow as [owner|].
        -- case_decide; [|done]. by destruct (fanout _ _ _ _ _ _ _) as [[m' ms'] g''].
        -- destruct Ho as [_ Ho]. destruct Ho as [x Hx]; [by left|discriminate].
    + unfold HandleErrorSignal; cbn. repeat case_decide; subst; try done.
      * destruct Hm as [m ->]; [done|].
        by destruct (abort_fanout _ _ _ _ _) as [[m' ms'] g''].
      * by destruct (Hne h).
    + unfold HandleSuccessSignal, store_req; cbn.
      case_decide; [done|].
      destruct (default ∅ rq !! source) as [[ist imsg]|] eqn:Hs; [|done]. cbn.
      case_decide; [done|].
      destruct (decide (ist = Locking)) as [->|Hn1].
      { destruct (decide (st = Locking)) as [->|Hn2]; [|by case_decide].
        destruct (count_reqs _ _) as [n k]. case_decide; [|done].
        destruct Hp as [[owner ->] _]; [by left|done]. }
      destruct (decide (ist = Unlocking)) as [->|Hn2]; [|done].
      destruct (count_reqs _ _) as [n k]. case_decide; [|done].
      destruct (decide (st = Unlocking)) as [->|Hn3].
      { destruct Ho as [_ Ho]. destruct Ho as [prev ->]; [by right|done]. }
      destruct (decide (st = AbortingLock)) as [->|Hn4]; [|done].
      destruct Hp as [[pending ->] [req_id ->]]; [by right|done].
    + done.
Qed.

(** ** The claims about the state machine *)

(** C1 (as amended): in every state that the handlers produce from the
    initial state of [NewLockableExt], [Owner] is non-nil if and only if
    [State] is [Locked] or [Unlocking].  ([AbortingLock] is entered from
    [Locking], before any owner was set, so there [Owner] is nil.) *)
Theorem owner_iff_locked_or_unlocking node ext :
  reachable uuid_New node ext →
  (is_Some (Owner ext) ↔ State ext = Locked ∨ State ext = Unlocking).
Proof. intros Hreach. apply Inv_owner. exact (reachable_Inv node ext Hreach). Qed.

(** C2: an [Unlocked] extension whose [Requirements] map is nil or empty,
    on a "lock" signal from [source], becomes [Locked] with [Owner] and
    [PendingOwner] set to [source], and emits exactly one message: a
    [SuccessSignal] to [source] whose [ReqID] is the lock signal's id. *)
Theorem lock_without_requirements node source h ext g :
  State ext = Unlocked →
  Requirements ext = None ∨ Requirements ext = Some ∅ →
  ∃ ext',
    HandleLockSignal uuid_New node source h "lock" ext g =
      Ok (ext',
          [mkMessage node source
             (SuccessSignal (mkResponseHeader (mkSignalHeader (uuid_New g) Direct) (Id h)))],
          ["locked"], S g)
    ∧ State ext' = Locked
    ∧ Owner ext' = Some source
    ∧ PendingOwner ext' = Some source
    ∧ Requirements ext' = Requirements ext.
Proof.
  intros Hst Hreq.
  exists (set_Owner (Some source) (set_PendingOwner (Some source) (set_State Locked ext))).
  split; [|done].
  unfold HandleLockSignal. rewrite decide_True by done. rewrite decide_True by done.
  rewrite decide_True; [done|].
  unfold reqs. by destruct Hreq as [-> | ->].
Qed.

(** C3: while [State] is [Locking], [Unlocking] or [AbortingLock], a "lock"
    signal is answered with the error "not_unlocked" to its sender and an
    "unlock" signal with the error "not_locked" to its sender, whoever the
    sender is (so in particular when it is not the owner); both answers
    carry the signal's id as [ReqID], and the extension is left as it was. *)
Theorem busy_rejects_lock_and_unlock node source h ext g :
  State ext = Locking ∨ State ext = Unlocking ∨ State ext = AbortingLock →
  HandleLockSignal uuid_New node source h "lock" ext g =
    Ok (ext,
        [mkMessage node source
           (ErrorSignal (mkResponseHeader (mkSignalHeader (uuid_New g) Direct) (Id h))
                        "not_unlocked")],
        [], S g)
  ∧ HandleLockSignal uuid_New node source h "unlock" ext g =
    Ok (ext,
        [mkMessage node source
           (ErrorSignal (mkResponseHeader (mkSignalHeader (uuid_New g) Direct) (Id h))
                        "not_locked")],
        [], S g).
Proof.
  intros Hst. unfold HandleLockSignal. split.
  - rewrite decide_True by done. rewrite decide_False; [done|].
    destruct Hst as [-> | [-> | ->]]; discriminate.
  - rewrite decide_False by discriminate. rewrite decide_True by done.
    rewrite decide_False; [done|].
    destruct Hst as [-> | [-> | ->]]; discriminate.
Qed.

(** What [HandleLinkSignal] does in each case, as the code has it. *)
Lemma HandleLinkSignal_cases node source h id action ext g :
  let reply sig := Ok (ext, [mkMessage node source sig], [], S g) in
  let error msg :=
    ErrorSignal (mkResponseHeader (mkSignalHeader (uuid_New g) Direct) (Id h)) msg in
  let success :=
    SuccessSignal (mkResponseHeader (mkSignalHeader (uuid_New g) Direct) (Id h)) in
  (State ext ≠ Unlocked →
     HandleLinkSignal uuid_New node source h id action ext g = reply (error "not_unlocked"))
  ∧ (State ext = Unlocked → action = "add" → reqs ext !! id = None →
     HandleLinkSignal uuid_New node source h id action ext g =
       Ok (set_Requirements (Some (<[id := mkReqInfo Unlocked ZeroUUID]> (reqs ext))) ext,
           [mkMessage node source success], ["requirement_added"], S g))
  ∧ (State ext = Unlocked → action = "add" → is_Some (reqs ext !! id) →
     HandleLinkSignal uuid_New node source h id action ext g =
       reply (error "already_requirement"))
  ∧ (State ext = Unlocked → action = "remove" → reqs ext !! id = None →
     HandleLinkSignal uuid_New node source h id action ext g =
       reply (error "can't link: not_requirement"))
  ∧ (State ext = Unlocked → action = "remove" → is_Some (reqs ext !! id) →
     HandleLinkSignal uuid_New node source h id action ext g =
       Ok (set_Requirements (delete id <$> Requirements ext) ext,
           [mkMessage node source success], ["requirement_removed"], S g)).
Proof.
  cbn. unfold HandleLinkSignal. repeat split.
  - intros Hst. by rewrite decide_False.
  - intros Hst -> Hl. rewrite decide_True by done. rewrite decide_True by done.
    by rewrite Hl.
  - intros Hst -> [v Hl]. rewrite decide_True by done. rewrite decide_True by done.
    by rewrite Hl.
  - intros Hst -> Hl. rewrite decide_True by done. rewrite decide_False by discriminate.
    rewrite decide_True by done. by rewrite Hl.
  - intros Hst -> [v Hl]. rewrite decide_True by done. rewrite decide_False by discriminate.
    rewrite decide_True by done. by rewrite Hl.
Qed.

(** C5: a [SuccessSignal] from a source that is not a key of
    [Requirements], or whose [ReqID] differs from the [MsgID] recorded for
    that requirement, leaves the extension exactly as it was and emits no
    message (and no change). *)
Theorem success_without_match_is_ignored node source h ext g :
  reqs ext !! source = None
  ∨ (∃ info, reqs ext !! source = Some info ∧ info_MsgID info ≠ RespReqID h) →
  HandleSuccessSignal uuid_New node source h ext g = Ok (ext, [], [], g).
Proof.
  intros Hcase. unfold HandleSuccessSignal. case_decide; [done|].
  destruct Hcase as [-> | (info & -> & Hne)]; [done|].
  by rewrite decide_True.
Qed.

(** C6 (as amended): in every state that the handlers produce from the
    initial state, processing an [ErrorSignal] whose error string is not
    "not_locked" completes and returns messages and changes.  (On
    "not_locked" [HandleErrorSignal] panics on purpose.) *)
Theorem error_signal_completes node source h err ext g :
  reachable uuid_New node ext →
  err ≠ "not_locked" →
  ∃ ext' messages changes g',
    Process uuid_New node source (ErrorSignal h err) ext g = Ok (ext', messages, changes, g').
Proof.
  intros Hreach Herr.
  pose proof (Process_no_panic node source (ErrorSignal h err) ext g
                (reachable_Inv node ext Hreach)) as Hok.
  destruct (Process _ _ _ _ _ _) as [[[[ext' ms] cs] g']|msg].
  - by exists ext', ms, cs, g'.
  - exfalso. apply Hok. intros h' Heq. by inversion Heq.
Qed.

End LockableFacts.

(** ** The claims about the state machine, on concrete runs *)

Section LockableRuns.

Import Lockable Scenario.

Lemma locked_ext_reachable : reachable ids node locked_ext.
Proof.
  eapply (reachable_step ids node (NewLockableExt None) client lock_signal 0).
  - apply reachable_new.
  - reflexivity.
Defined.

Lemma locking_ext_reachable : reachable ids node locking_ext.
Proof.
  eapply (reachable_step ids node (NewLockableExt (Some [req])) client lock_signal 0).
  - apply reachable_new.
  - vm_compute. reflexivity.
Defined.

Lemma aborting_ext_reachable : reachable ids node aborting_ext.
Proof.
  eapply (reachable_step ids node locking_ext req refusal 1).
  - apply locking_ext_reachable.
  - vm_compute. reflexivity.
Defined.

(** The run behind [aborting_ext]: after the refusal the state is
    [AbortingLock] and there is no owner. *)
Example aborting_ext_state :
  State aborting_ext = AbortingLock ∧ Owner aborting_ext = None
  ∧ PendingOwner aborting_ext = Some client.
Proof. vm_compute. done. Qed.

(** C1, the claim as the specification words it, fails: a lockable whose
    only requirement refuses the lock is in [AbortingLock] with a nil
    [Owner]. *)
Lemma owner_nil_while_aborting :
  ¬ (∀ (uuid_New : nat → UUID) node ext,
       reachable uuid_New node ext →
       (is_Some (Owner ext) ↔
        State ext = Locked ∨ State ext = Unlocking ∨ State ext = AbortingLock)).
Proof.
  intros Hclaim.
  destruct (Hclaim ids node aborting_ext aborting_ext_reachable) as [_ Hback].
  destruct Hback as [owner Howner].
  - right; right. vm_compute. reflexivity.
  - vm_compute in Howner. discriminate.
Qed.

Lemma owner_iff_locked_or_unlocking_witness :
  reachable ids node locked_ext
  ∧ (is_Some (Owner locked_ext) ↔ State locked_ext = Locked ∨ State locked_ext = Unlocking).
Proof.
  split; [exact locked_ext_reachable|].
  apply (owner_iff_locked_or_unlocking ids node locked_ext). exact locked_ext_reachable.
Defined.

Lemma lock_without_requirements_witness :
  ∃ ext',
    HandleLockSignal ids node client (direct 50%N) "lock" (NewLockableExt None) 0 =
      Ok (ext',
          [mkMessage node client
             (SuccessSignal (mkResponseHeader (mkSignalHeader (ids 0) Direct) 50%N))],
          ["locked"], 1)
    ∧ State ext' = Locked
    ∧ Owner ext' = Some client
    ∧ PendingOwner ext' = Some client
    ∧ Requirements ext' = None.
Proof.
  apply (lock_without_requirements ids node client (direct 50%N) (NewLockableExt None) 0).
  - reflexivity.
  - left. reflexivity.
Defined.

Lemma busy_rejects_lock_and_unlock_witness :
  HandleLockSignal ids node req (direct 51%N) "lock" aborting_ext 3 =
    Ok (aborting_ext,
        [mkMessage node req
           (ErrorSignal (mkResponseHeader (mkSignalHeader (ids 3) Direct) 51%N)
                        "not_unlocked")],
        [], 4)
  ∧ HandleLockSignal ids node req (direct 51%N) "unlock" aborting_ext 3 =
    Ok (aborting_ext,
        [mkMessage node req
           (ErrorSignal (mkResponseHeader (mkSignalHeader (ids 3) Direct) 51%N)
                        "not_locked")],
        [], 4).
Proof.
  apply (busy_rejects_lock_and_unlock ids node req (direct 51%N) aborting_ext 3).
  right; right. vm_compute. reflexivity.
Defined.

(** C4: the code answers the removal of an id that is not a requirement
    with the error string "can't link: not_requirement", not with the code
    "not_requirement" that the claim names (and that [HandleErrorSignal]
    lists among its cases); the requirements are left as they were. *)
Theorem link_remove_absent_reply :
  HandleLinkSignal ids node client (direct 50%N) req "remove" (NewLockableExt None) 0 =
    Ok (NewLockableExt None,
        [mkMessage node client
           (ErrorSignal (mkResponseHeader (mkSignalHeader (ids 0) Direct) 50%N)
                        "can't link: not_requirement")],
        [], 1)
  ∧ "can't link: not_requirement" ≠ "not_requirement".
Proof. split; [reflexivity | discriminate]. Qed.

Lemma success_without_match_is_ignored_witness :
  (reqs locking_ext !! client = None
   ∨ (∃ info, reqs locking_ext !! client = Some info ∧ info_MsgID info ≠ 100%N))
  ∧ HandleSuccessSignal ids node client (mkResponseHeader (direct 61%N) 100%N) locking_ext 1
    = Ok (locking_ext, [], [], 1).
Proof.
  assert (Hcase : reqs locking_ext !! client = None
                  ∨ (∃ info, reqs locking_ext !! client = Some info
                             ∧ info_MsgID info ≠ RespReqID (mkResponseHeader (direct 61%N) 100%N))).
  { left. vm_compute. reflexivity. }
  split; [exact Hcase|].
  exact (success_without_match_is_ignored ids node client
           (mkResponseHeader (direct 61%N) 100%N) locking_ext 1 Hcase).
Defined.

(** C6, the claim as the specification words it, fails: the error string
    "not_locked" makes [HandleErrorSignal] panic, in the initial state
    already. *)
Lemma not_locked_panics :
  ¬ (∀ (uuid_New : nat → UUID) node source h err ext g,
       reachable uuid_New node ext →
       ∃ ext' messages changes g',
         Process uuid_New node source (ErrorSignal h err) ext g =
           Ok (ext', messages, changes, g')).
Proof.
  intros Hclaim.
  destruct (Hclaim ids node client (mkResponseHeader (direct 60%N) 50%N) "not_locked"
              (NewLockableExt None) 0 (reachable_new ids node None))
    as (ext' & ms & cs & g' & Hrun).
  vm_compute in Hrun. discriminate.
Qed.

Lemma error_signal_completes_witness :
  reachable ids node locking_ext
  ∧ "not_unlocked" ≠ "not_locked"
  ∧ ∃ ext' messages changes g',
      Process ids node req refusal locking_ext 1 = Ok (ext', messages, changes, g').
Proof.
  split; [exact locking_ext_reachable|]. split; [discriminate|].
  apply (error_signal_completes ids node req (mkResponseHeader (direct 60%N) 100%N)
           "not_unlocked" locking_ext 1).
  - exact locking_ext_reachable.
  - discriminate.
Defined.

End LockableRuns.

(** * Facts about the router *)

Section RouterFacts.
Import Router.
Implicit Types (ctx : Context) (msg : Message) (id : NodeID).

Lemma mailbox_AddNode ctx id node id' :
  mailbox (AddNode ctx id node) id' =
  if decide (id = id') then Queue (MsgChan node) else mailbox ctx id'.
Proof.
  unfold mailbox, AddNode; cbn. case_decide as Heq.
  - subst. by rewrite lookup_insert_eq.
  - by rewrite lookup_insert_ne.
Qed.

(** A node that [getNode] returns is registered under its id afterwards,
    and getting it changed no mailbox. *)
Lemma getNode_found ctx id ctx1 target :
  getNode ctx id = (ctx1, inl target) →
  nodeMap ctx1 !! id = Some target ∧ ∀ id', mailbox ctx1 id' = mailbox ctx id'.
Proof.
  unfold getNode, LoadNode. destruct (nodeMap ctx !! id) as [n|] eqn:Hl.
  - intros [= <- <-]. done.
  - destruct (DB ctx !! id) as [[buffer_size|msg]|]; intros [= <- <-].
    split; [apply lookup_insert_eq|].
    intros id'. rewrite mailbox_AddNode. case_decide; [|done].
    subst. unfold mailbox. by rewrite Hl.
Qed.

Lemma getNode_failed ctx id ctx1 err :
  getNode ctx id = (ctx1, inr err) → ctx1 = ctx.
Proof.
  unfold getNode, LoadNode. destruct (nodeMap ctx !! id) as [n|]; [done|].
  destruct (DB ctx !! id) as [[buffer_size|msg]|]; by intros [= <- <-].
Qed.

Lemma mailbox_enqueue ctx id target msg id' :
  nodeMap ctx !! id = Some target →
  mailbox (enqueue ctx id target msg) id' =
  if decide (id = id') then mailbox ctx id ++ [msg] else mailbox ctx id'.
Proof.
  intros Hl. unfold enqueue. rewrite mailbox_AddNode. case_decide; [|done].
  cbn. unfold mailbox. by rewrite Hl.
Qed.

Lemma Send_one_step ctx msg rest :
  Send ctx (msg :: rest) =
  if decide (Dest msg = ZeroID) then (ctx, SendPanic "Can't send to null ID")
  else match getNode ctx (Dest msg) with
       | (ctx1, inl target) =>
           if decide (length (Queue (MsgChan target)) < Cap (MsgChan target))
           then Send (enqueue ctx1 (Dest msg) target msg) rest
           else (ctx1, SendErr (SignalOverflow (Dest msg)))
       | (ctx1, inr err) => (ctx1, SendErr err)
       end.
Proof. reflexivity. Qed.

Lemma filter_dest_cons id msg (pre : list Message) :
  filter (λ m, Dest m = id) (msg :: pre) =
  if decide (Dest msg = id) then msg :: filter (λ m, Dest m = id) pre
  else filter (λ m, Dest m = id) pre.
Proof. by rewrite filter_cons. Qed.

Lemma Send_outcome messages :
  ∀ ctx ctx' r, Send ctx messages = (ctx', r) →
    (r = SendOk ∧ ∀ id, mailbox ctx' id = mailbox ctx id ++ filter (λ m, Dest m = id) messages)
    ∨ (r ≠ SendOk ∧ ∃ pre msg post ctx1,
         messages = pre ++ msg :: post
         ∧ Send ctx pre = (ctx1, SendOk)
         ∧ Send ctx1 [msg] = (ctx', r)
         ∧ ∀ id, mailbox ctx' id = mailbox ctx id ++ filter (λ m, Dest m = id) pre).
Proof.
  induction messages as [|msg rest IH]; intros ctx ctx' r Hs.
  - cbn in Hs. injection Hs as <- <-. left. split; [done|].
    intros id. by rewrite app_nil_r.
  - rewrite Send_one_step in Hs. case_decide as Hz.
    { injection Hs as <- <-. right. split; [done|].
      exists [], msg, rest, ctx. repeat split.
      - rewrite Send_one_step. by rewrite decide_True.
      - intros id. by rewrite app_nil_r. }
    destruct (getNode ctx (Dest msg)) as [ctx1 [target|err]] eqn:Hg.
    + apply getNode_found in Hg as Hfound. destruct Hfound as [Hl Hmb].
      case_decide as Hroom.
      * assert (Hhead : Send ctx [msg] = (enqueue ctx1 (Dest msg) target msg, SendOk)).
        { rewrite Send_one_step. rewrite decide_False by done. rewrite Hg.
          by rewrite decide_True. }
        assert (Hbox : ∀ id, mailbox (enqueue ctx1 (Dest msg) target msg) id
                      = mailbox ctx id ++ filter (λ m, Dest m = id) [msg]).
        { intros id. rewrite mailbox_enqueue by done. rewrite filter_dest_cons.
          rewrite filter_nil. rewrite !Hmb. case_decide; [by subst|by rewrite app_nil_r]. }
        destruct (IH _ _ _ Hs) as [[-> Hall] | [Hne (pre & m & post & ctx2 & -> & Hpre & Hm & Hall)]].
        -- left. split; [done|]. intros id. rewrite Hall, Hbox.
           rewrite <- app_assoc. f_equal.
           rewrite !filter_dest_cons, filter_nil. by case_decide.
        -- right. split; [done|]. exists (msg :: pre), m, post, ctx2. repeat split.
           ++ rewrite Send_one_step. rewrite decide_False by done. rewrite Hg.
              by rewrite decide_True.
           ++ done.
           ++ intros id. rewrite Hall, Hbox. rewrite <- app_assoc. f_equal.
              rewrite !filter_dest_cons, filter_nil. by case_decide.
      * injection Hs as <- <-. right. split; [done|].
        exists [], msg, rest, ctx. repeat split.
        -- rewrite Send_one_step. rewrite decide_False by done. rewrite Hg.
           by rewrite decide_False.
        -- intros id. rewrite Hmb. by rewrite app_nil_r.
    + injection Hs as <- <-. right. split; [done|].
      exists [], msg, rest, ctx. repeat split.
      * rewrite Send_one_step. rewrite decide_False by done. by rewrite Hg.
      * intros id. apply getNode_failed in Hg. subst. by rewrite app_nil_r.
Qed.

(** C7: a message for the zero id makes [Send] fail (it panics) and
    nothing is sent.  A message whose destination exists, be it loaded in
    the context or only stored in the database, is appended to the
    destination's mailbox when the mailbox has room (a stored destination
    is loaded first, with an empty mailbox of the stored size); when the
    mailbox is full [Send] returns the overflow error at once, with every
    mailbox holding exactly what it held before.  A message whose
    destination is neither loaded nor stored makes [Send] return
    [NodeNotFoundError], and nothing changes. *)
Theorem Send_one_message ctx msg rest :
  (Dest msg = ZeroID →
     Send ctx (msg :: rest) = (ctx, SendPanic "Can't send to null ID"))
  ∧ (Dest msg ≠ ZeroID →
     ∀ target, nodeMap ctx !! Dest msg = Some target →
       (length (Queue (MsgChan target)) < Cap (MsgChan target) →
          Send ctx (msg :: rest) = Send (enqueue ctx (Dest msg) target msg) rest
          ∧ mailbox (enqueue ctx (Dest msg) target msg) (Dest msg)
            = mailbox ctx (Dest msg) ++ [msg]
          ∧ ∀ id, id ≠ Dest msg →
              mailbox (enqueue ctx (Dest msg) target msg) id = mailbox ctx id)
       ∧ (Cap (MsgChan target) ≤ length (Queue (MsgChan target)) →
          Send ctx (msg :: rest) = (ctx, SendErr (SignalOverflow (Dest msg)))))
  ∧ (Dest msg ≠ ZeroID →
     ∀ buffer_size,
       nodeMap ctx !! Dest msg = None →
       DB ctx !! Dest msg = Some (Persisted buffer_size) →
       let target := mkNode (mkChan buffer_size []) in
       let loaded := AddNode ctx (Dest msg) target in
       (0 < buffer_size →
          Send ctx (msg :: rest) = Send (enqueue loaded (Dest msg) target msg) rest
          ∧ mailbox (enqueue loaded (Dest msg) target msg) (Dest msg) = [msg]
          ∧ ∀ id, id ≠ Dest msg →
              mailbox (enqueue loaded (Dest msg) target msg) id = mailbox ctx id)
       ∧ (buffer_size = 0 →
          Send ctx (msg :: rest) = (loaded, SendErr (SignalOverflow (Dest msg)))
          ∧ ∀ id, mailbox loaded id = mailbox ctx id))
  ∧ (Dest msg ≠ ZeroID →
     nodeMap ctx !! Dest msg = None → DB ctx !! Dest msg = None →
     Send ctx (msg :: rest) = (ctx, SendErr NodeNotFoundError)).
Proof.
  rewrite Send_one_step. split; [|split; [|split]].
  - intros Hz. by rewrite decide_True.
  - intros Hz target Hl. rewrite decide_False by done.
    assert (Hget : getNode ctx (Dest msg) = (ctx, inl target)).
    { unfold getNode. by rewrite Hl. }
    rewrite Hget. split.
    + intros Hroom. rewrite decide_True by done. split; [done|]. split.
      * rewrite mailbox_enqueue by done. by rewrite decide_True.
      * intros id Hid. rewrite mailbox_enqueue by done. by rewrite decide_False.
    + intros Hfull. by rewrite decide_False by lia.
  - intros Hz buffer_size Hl Hdb. cbn zeta. rewrite decide_False by done.
    assert (Hget : getNode ctx (Dest msg)
                   = (AddNode ctx (Dest msg) (mkNode (mkChan buffer_size [])),
                      inl (mkNode (mkChan buffer_size [])))).
    { unfold getNode, LoadNode. by rewrite Hl, Hdb. }
    rewrite Hget. pose proof (getNode_found _ _ _ _ Hget) as [Hl1 Hmb]. cbn [MsgChan Queue Cap length].
    split.
    + intros Hroom. rewrite decide_True by done. split; [done|]. split.
      * rewrite mailbox_enqueue by done. rewrite decide_True by done.
        rewrite Hmb. unfold mailbox. by rewrite Hl.
      * intros id Hid. rewrite mailbox_enqueue by done.
        rewrite decide_False by done. apply Hmb.
    + intros ->. rewrite decide_False by lia. done.
  - intros Hz Hl Hdb. rewrite decide_False by done.
    unfold getNode, LoadNode. by rewrite Hl, Hdb.
Qed.

(** C10: when [Send] does not return nil, its message list splits into a
    prefix that was sent in full, the message that failed, and a rest; the
    failure is the one that message alone produces after the prefix, and
    every mailbox ends up holding what it held before followed by the
    messages of the prefix addressed to it, in order: the prefix stays
    queued, and neither the failing message nor any message after it is. *)
Theorem Send_stops_at_first_failure ctx messages ctx' r :
  Send ctx messages = (ctx', r) →
  r ≠ SendOk →
  ∃ pre msg post ctx1,
    messages = pre ++ msg :: post
    ∧ Send ctx pre = (ctx1, SendOk)
    ∧ Send ctx1 [msg] = (ctx', r)
    ∧ ∀ id, mailbox ctx' id = mailbox ctx id ++ filter (λ m, Dest m = id) pre.
Proof.
  intros Hs Hr. destruct (Send_outcome messages ctx ctx' r Hs) as [[-> _]|[_ Hsplit]]; done.
Qed.

(** When [Send] returns nil every message is queued, in order. *)
Lemma Send_delivers_all ctx messages ctx' :
  Send ctx messages = (ctx', SendOk) →
  ∀ id, mailbox ctx' id = mailbox ctx id ++ filter (λ m, Dest m = id) messages.
Proof.
  intros Hs. destruct (Send_outcome messages ctx ctx' SendOk Hs) as [[_ Hall]|[Hne _]]; done.
Qed.

End RouterFacts.

Section RouterRuns.

Import Router Scenario.

Lemma Send_one_message_witness :
  Send small_ctx [zero_msg; first_msg] = (small_ctx, SendPanic "Can't send to null ID")
  ∧ (Send small_ctx [first_msg] = (full_ctx, SendOk)
     ∧ mailbox full_ctx node = mailbox small_ctx node ++ [first_msg])
  ∧ (Send full_ctx [second_msg; third_msg] = (full_ctx, SendErr (SignalOverflow node))
     ∧ mailbox full_ctx node = [first_msg])
  ∧ (Send stored_ctx [stray_msg] = (loaded_ctx, SendOk)
     ∧ mailbox loaded_ctx req = [stray_msg])
  ∧ (∃ loaded, Send unbuffered_ctx [stray_msg] = (loaded, SendErr (SignalOverflow req))
               ∧ ∀ id, mailbox loaded id = mailbox unbuffered_ctx id)
  ∧ Send small_ctx [stray_msg] = (small_ctx, SendErr NodeNotFoundError).
Proof.
  pose proof (Send_one_message small_ctx zero_msg [first_msg]) as (Hzero & _ & _ & _).
  pose proof (Send_one_message small_ctx first_msg []) as (_ & Hroom & _ & _).
  pose proof (Send_one_message full_ctx second_msg [third_msg]) as (_ & Hfull & _ & _).
  pose proof (Send_one_message stored_ctx stray_msg []) as (_ & _ & Hstored & _).
  pose proof (Send_one_message unbuffered_ctx stray_msg []) as (_ & _ & Hunbuf & _).
  pose proof (Send_one_message small_ctx stray_msg []) as (_ & _ & _ & Hstray).
  split; [apply Hzero; reflexivity|].
  split.
  { destruct (Hroom ltac:(discriminate) (mkNode (mkChan 1 [])) eq_refl) as [Hsend _].
    destruct (Hsend ltac:(cbn; lia)) as (Heq & Hbox & _).
    split; [rewrite Heq; vm_compute; reflexivity | vm_compute; reflexivity]. }
  split.
  { destruct (Hfull ltac:(discriminate) (mkNode (mkChan 1 [first_msg])) eq_refl)
      as [_ Hover].
    split; [exact (Hover ltac:(cbn; lia)) | vm_compute; reflexivity]. }
  split.
  { destruct (Hstored ltac:(discriminate) 1 eq_refl eq_refl) as [Hsend _].
    destruct (Hsend ltac:(lia)) as (Heq & Hbox & _).
    split; [rewrite Heq; vm_compute; reflexivity | vm_compute; reflexivity]. }
  split.
  { destruct (Hunbuf ltac:(discriminate) 0 eq_refl eq_refl) as [_ Hover].
    destruct (Hover eq_refl) as (Heq & Hbox).
    eexists. split; [exact Heq | exact Hbox]. }
  apply Hstray; [discriminate | reflexivity | reflexivity].
Defined.

Lemma Send_stops_at_first_failure_witness :
  Send small_ctx [first_msg; second_msg; third_msg]
    = (full_ctx, SendErr (SignalOverflow node))
  ∧ ∃ pre msg post ctx1,
      [first_msg; second_msg; third_msg] = pre ++ msg :: post
      ∧ Send small_ctx pre = (ctx1, SendOk)
      ∧ Send ctx1 [msg] = (full_ctx, SendErr (SignalOverflow node))
      ∧ ∀ id, mailbox full_ctx id = mailbox small_ctx id ++ filter (λ m, Dest m = id) pre.
Proof.
  assert (Hrun : Send small_ctx [first_msg; second_msg; third_msg]
                 = (full_ctx, SendErr (SignalOverflow node))).
  { vm_compute. reflexivity. }
  split; [exact Hrun|].
  apply (Send_stops_at_first_failure small_ctx [first_msg; second_msg; third_msg]
           full_ctx (SendErr (SignalOverflow node)) Hrun).
  discriminate.
Defined.

End RouterRuns.

(** * Facts about [Changes.Add] *)

Section ExtensionFacts.
Import Extension.
Implicit Types (m : mem) (s : slice) (fields : list string).

(** [append] never touches the cells a slice already shows, nor any slice
    variable. *)
Lemma append_keeps_elems m s fields m' s' :
  wf_slice m s →
  append m s fields = (m', s') →
  elems m' s = elems m s ∧ vars m' = vars m
  ∧ elems m' s' = elems m s ++ fields.
Proof.
  intros [Hlen Hcap]. unfold append. case_decide as Hroom; intros [= <- <-].
  - unfold elems, cells in *; cbn. rewrite lookup_insert_eq; cbn.
    set (a := default [] (arrays m !! array s)) in *.
    assert (Hla : length (take (len s) a) = len s) by (rewrite length_take; lia).
    repeat split.
    + rewrite take_app_le by lia. rewrite take_take. f_equal. lia.
    + rewrite app_assoc. rewrite take_app_le by (rewrite length_app; lia).
      rewrite take_ge by (rewrite length_app; lia). done.
  - unfold elems, cells in *; cbn. rewrite lookup_insert_eq; cbn.
    repeat split.
    + destruct (decide (fresh (dom (arrays m)) = array s)) as [Heq|Hne].
      * assert (Hnone : arrays m !! array s = None).
        { apply not_elem_of_dom. rewrite <- Heq. apply is_fresh. }
        rewrite Hnone in *. cbn in *. rewrite <- Heq, lookup_insert_eq. cbn.
        assert (len s = 0) as -> by lia. done.
      * by rewrite lookup_insert_ne.
    + apply take_ge. rewrite length_app, length_take. lia.
Qed.

(** Whatever the fields, the caller's variable and the elements it shows
    are the same after [Changes.Add] as before. *)
Lemma Changes_Add_leaves_caller m p s fields :
  vars m !! p = Some s →
  wf_slice m s →
  ∃ m', Changes_Add m p fields = Ok m'
        ∧ vars m' !! p = Some s
        ∧ read m' p = read m p.
Proof.
  intros Hp Hwf. unfold Changes_Add. rewrite Hp.
  destruct (append m s fields) as [m1 s1] eqn:Ha.
  apply append_keeps_elems in Ha as (He & Hv & _); [|done].
  eexists. split; [reflexivity|].
  assert (Hne : fresh (dom (vars m1)) ≠ p).
  { intros Heq. apply (is_fresh (dom (vars m1))). rewrite Heq, Hv.
    apply elem_of_dom. by exists s. }
  unfold read; cbn. rewrite lookup_insert_ne by done. rewrite Hv, Hp. cbn.
  split; [done|]. f_equal. exact He.
Qed.

End ExtensionFacts.

Section ExtensionRuns.

Import Extension Scenario.

(** C8: the code does not do what the claim asks.  A caller whose
    [Changes] is empty calls [Add("locked")] and still holds an empty list,
    not one that ends with "locked"; a caller whose [Changes] shows
    "locking" and has spare capacity still sees only "locking". *)
Theorem Changes_Add_not_visible :
  read caller_mem 0 = Some []
  ∧ (∃ m', Changes_Add caller_mem 0 ["locked"] = Ok m'
           ∧ read m' 0 = Some []
           ∧ read m' 0 ≠ Some ([] ++ ["locked"]))
  ∧ read roomy_mem 0 = Some ["locking"]
  ∧ (∃ m', Changes_Add roomy_mem 0 ["locked"] = Ok m'
           ∧ read m' 0 = Some ["locking"]
           ∧ read m' 0 ≠ Some (["locking"] ++ ["locked"])).
Proof.
  split; [reflexivity|].
  split; [eexists; split; [vm_compute; reflexivity|]; split; [reflexivity|discriminate]|].
  split; [reflexivity|].
  eexists; split; [vm_compute; reflexivity|]; split; [reflexivity|discriminate].
Qed.
End ExtensionRuns.

(** * Facts about [SerializeSignal] *)

Section WireFacts.

Import Wire.
Open Scope Z_scope.

Lemma int_wrap_small z : - 2^63 ≤ z < 2^63 → int_wrap z = z.
Proof. intros Hz. unfold int_wrap. rewrite Z.mod_small; lia. Qed.

Lemma pad_req_spec n B :
  0 ≤ n → 0 < B → n + 20 + B ≤ MaxInt →
  0 ≤ pad_req n B < B ∧ (SIGNAL_SER_HEADER_LENGTH + n + pad_req n B) mod B = 0.
Proof.
  unfold MaxInt, SIGNAL_SER_HEADER_LENGTH. intros Hn HB Hmax. unfold pad_req.
  rewrite decide_True by lia.
  rewrite (int_wrap_small (SIGNAL_SER_HEADER_LENGTH + n)) by (unfold SIGNAL_SER_HEADER_LENGTH; lia).
  unfold SIGNAL_SER_HEADER_LENGTH.
  rewrite Z.rem_mod_nonneg by lia.
  pose proof (Z.mod_pos_bound (20 + n) B HB) as Hr.
  rewrite int_wrap_small by lia.
  case_decide as Hpad.
  - split; [lia|].
    replace (20 + n + (B - (20 + n) mod B)) with ((20 + n - (20 + n) mod B) + 1 * B) by lia.
    rewrite Z.mod_add by lia.
    rewrite Zminus_mod_idemp_r. by rewrite Z.sub_diag, Z.mod_0_l by lia.
  - assert (Hzero : (20 + n) mod B = 0) by lia.
    split; [lia|]. by rewrite Z.add_0_r.
Qed.

Lemma length_be_bytes n v : length (be_bytes n v) = n.
Proof.
  revert v. induction n as [|n IH]; intros v; cbn; [done|].
  rewrite length_app, IH. cbn. lia.
Qed.

Lemma be_value_snoc bytes b : be_value (bytes ++ [b]) = be_value bytes * 256 + b.
Proof. unfold be_value. by rewrite foldl_snoc. Qed.

Lemma be_value_be_bytes n v : 0 ≤ v → be_value (be_bytes n v) = v mod 256 ^ Z.of_nat n.
Proof.
  revert v. induction n as [|n IH]; intros v Hv.
  - cbn. by rewrite Z.mod_1_r.
  - cbn [be_bytes]. rewrite be_value_snoc, IH by (apply Z.div_pos; lia).
    rewrite Nat2Z.inj_succ, Z.pow_succ_r by lia.
    assert (Hpow : 0 < 256 ^ Z.of_nat n) by (apply Z.pow_pos_nonneg; lia).
    rewrite Z.rem_mul_r by lia. lia.
Qed.

Lemma Length_header_of signal body B :
  0 < B → Z.of_nat (length body) + 20 + B ≤ MaxInt →
  Length (header_of signal body B)
  = Z.of_nat (length body) + pad_req (Z.of_nat (length body)) B.
Proof.
  intros HB Hmax.
  destruct (pad_req_spec (Z.of_nat (length body)) B) as [Hpad _]; [lia|done|done|].
  unfold MaxInt in Hmax. unfold header_of; cbn. unfold uint64.
  rewrite int_wrap_small by lia. apply Z.mod_small. lia.
Qed.

(** C9 (as amended): for every signal whose [Serialize] succeeds and every
    positive block size [B], [SerializeSignal] pads the body so that the
    length of the whole serialization, the 20-byte header included, is a
    multiple of [B]; the header's length field records the length of the
    padded body, which is the body's length plus fewer than [B] bytes, and
    reads back from the bytes; the body follows the header unchanged. *)
Theorem SerializeSignal_pads_whole_message signal block_size body :
  Serialize signal = inl body →
  0 < block_size →
  Z.of_nat (length body) + 20 + block_size ≤ MaxInt →
  ∃ ser,
    SerializeSignal signal block_size = inl ser
    ∧ Z.of_nat (length ser) mod block_size = 0
    ∧ Z.of_nat (length ser)
      = SIGNAL_SER_HEADER_LENGTH + Length (header_of signal body block_size)
    ∧ read_Length ser = Length (header_of signal body block_size)
    ∧ Z.of_nat (length body) ≤ Length (header_of signal body block_size)
      < Z.of_nat (length body) + block_size
    ∧ take (length body) (drop 20 ser) = body.
Proof.
  intros Hser HB Hmax.
  destruct (pad_req_spec (Z.of_nat (length body)) block_size) as [Hpad Hmod];
    [lia|done|done|].
  pose proof (Length_header_of signal body block_size HB Hmax) as HL.
  unfold SerializeSignal. rewrite Hser. eexists. split; [reflexivity|].
  set (L := Length (header_of signal body block_size)) in *.
  set (pad := pad_req (Z.of_nat (length body)) block_size) in *.
  assert (Hlen : Z.of_nat (length (be_bytes 4 (Magic (header_of signal body block_size))
                   ++ be_bytes 8 (TypeHash (header_of signal body block_size))
                   ++ be_bytes 8 L ++ body ++ replicate (Z.to_nat pad) 0))
                 = SIGNAL_SER_HEADER_LENGTH + L).
  { rewrite !length_app, !length_be_bytes, length_replicate.
    unfold SIGNAL_SER_HEADER_LENGTH. lia. }
  split; [|split; [exact Hlen|split; [|split]]].
  - rewrite Hlen, HL. by rewrite Z.add_assoc.
  - unfold read_Length.
    rewrite app_assoc, (drop_app_length' _ _ 12)
      by (rewrite length_app, !length_be_bytes; done).
    rewrite take_app_length' by (by rewrite length_be_bytes).
    rewrite be_value_be_bytes by lia. apply Z.mod_small.
    unfold MaxInt in Hmax. change (256 ^ Z.of_nat 8) with (2 ^ 64). lia.
  - lia.
  - rewrite !app_assoc, <- (app_assoc _ body).
    rewrite (drop_app_length' _ _ 20)
      by (rewrite !length_app, !length_be_bytes; done).
    by rewrite take_app_length.
Qed.

End WireFacts.

Section WireRuns.

Import Wire Scenario.
Open Scope Z_scope.

(** C9, the claim as the specification words it, fails: for a two-byte
    body and block size 16 the header's length field is 12. *)
Lemma body_length_not_padded :
  ¬ (∀ signal block_size body,
       Serialize signal = inl body → 0 < block_size →
       Z.of_nat (length body) + 20 + block_size ≤ MaxInt →
       Length (header_of signal body block_size) mod block_size = 0).
Proof.
  intros Hclaim.
  assert (Hlen : Length (header_of json_signal [123; 125] 16) mod 16 = 0).
  { apply Hclaim; [reflexivity | lia | vm_compute; discriminate]. }
  vm_compute in Hlen. discriminate.
Qed.

Lemma SerializeSignal_pads_whole_message_witness :
  ∃ ser,
    SerializeSignal json_signal 16 = inl ser
    ∧ Z.of_nat (length ser) mod 16 = 0
    ∧ Z.of_nat (length ser)
      = SIGNAL_SER_HEADER_LENGTH + Length (header_of json_signal [123; 125] 16)
    ∧ read_Length ser = Length (header_of json_signal [123; 125] 16)
    ∧ Z.of_nat (length [123; 125]) ≤ Length (header_of json_signal [123; 125] 16)
      < Z.of_nat (length [123; 125]) + 16
    ∧ take (length [123; 125]) (drop 20 ser) = [123; 125].
Proof.
  apply (SerializeSignal_pads_whole_message json_signal 16 [123; 125]).
  - reflexivity.
  - lia.
  - vm_compute. discriminate.
Defined.

End WireRuns.

(** * More about the lockable extension *)

Section LockableMore.

Import Lockable.

Variable uuid_New : nat -> UUID.

Implicit Types (m : gmap NodeID ReqInfo) (ext : LockableExt) (l : list (NodeID * ReqInfo)).

Lemma foldl_fanout_spec node action st l :
  ∀ m ms g m' ms' g',
    NoDup l.*1 →
    foldl (fanout_step uuid_New node action st) (m, ms, g) l = (m', ms', g') →
    g' = g + length l
    ∧ ms' = ms ++ imap (λ i e, mkMessage node e.1 (LockSignal (mkSignalHeader (uuid_New (g + i)) Direct) action)) l
    ∧ (∀ i k, l.*1 !! i = Some k → m' !! k = Some (mkReqInfo st (uuid_New (g + i))))
    ∧ (∀ k, k ∉ l.*1 → m' !! k = m !! k).
Proof.
  induction l as [|e l IH]; intros m ms g m' ms' g' Hnd Hf.
  - cbn in Hf. injection Hf as <- <- <-. cbn. rewrite app_nil_r.
    split; [lia|]. split; [done|]. split; [|done].
    intros i k Hik. by rewrite lookup_nil in Hik.
  - rewrite fmap_cons in Hnd. apply NoDup_cons in Hnd as [Hhd Hnd].
    rewrite foldl_step, fanout_step_eq in Hf.
    destruct (IH _ _ _ _ _ _ Hnd Hf) as (Hg & Hms & Hin & Hout).
    split; [cbn; lia|]. split; [|split].
    + rewrite Hms, <- app_assoc. cbn. f_equal. rewrite Nat.add_0_r. f_equal.
      apply imap_ext. intros i x _. cbn. do 4 f_equal. lia.
    + intros i k Hik. destruct i as [|i]; cbn in Hik.
      * injection Hik as <-. rewrite Hout by done. rewrite lookup_insert_eq.
        by rewrite Nat.add_0_r.
      * rewrite (Hin i k Hik). do 3 f_equal. lia.
    + intros k Hk. rewrite fmap_cons in Hk. apply not_elem_of_cons in Hk as [Hne Hk].
      rewrite Hout by done. by rewrite lookup_insert_ne.
Qed.

Lemma elem_of_keys m k : k ∈ (map_to_list m).*1 ↔ is_Some (m !! k).
Proof.
  rewrite list_elem_of_fmap. split.
  - intros ([k' v] & -> & Hin). apply elem_of_map_to_list in Hin. by exists v.
  - intros [v Hv]. exists (k, v). split; [done|]. by apply elem_of_map_to_list.
Qed.

Lemma fanout_spec node action st m ms g m' ms' g' :
  fanout uuid_New node action st m ms g = (m', ms', g') →
  g' = g + size m
  ∧ ms' = ms ++ imap (λ i e, mkMessage node e.1
                        (LockSignal (mkSignalHeader (uuid_New (g + i)) Direct) action))
                     (map_to_list m)
  ∧ (∀ i k, (map_to_list m).*1 !! i = Some k →
       m' !! k = Some (mkReqInfo st (uuid_New (g + i))))
  ∧ dom m' = dom m.
Proof.
  intros Hf. unfold fanout in Hf.
  apply foldl_fanout_spec in Hf as (Hg & Hms & Hin & Hout); [|apply NoDup_fst_map_to_list].
  rewrite length_map_to_list in Hg. split; [done|]. split; [done|]. split; [done|].
  apply set_eq. intros k. rewrite !elem_of_dom.
  destruct (decide (k ∈ (map_to_list m).*1)) as [Hk|Hk].
  - pose proof Hk as Hk'. apply elem_of_keys in Hk'.
    apply list_elem_of_lookup in Hk as [i Hi]. rewrite (Hin i k Hi). split; [done|eauto].
  - by rewrite Hout.
Qed.

(** X1: in every state the handlers produce from the initial one, a signal
    of any kind and direction is processed to the end; the one exception
    is the [ErrorSignal] "not_locked".  No handler dereferences a nil owner,
    pending owner or request id, or writes to a nil requirements map. *)
Theorem handlers_complete node source signal ext g :
  reachable uuid_New node ext →
  (∀ h, signal ≠ ErrorSignal h "not_locked") →
  ∃ ext' messages changes g',
    Process uuid_New node source signal ext g = Ok (ext', messages, changes, g').
Proof.
  intros Hreach Hne.
  pose proof (Process_no_panic uuid_New node source signal ext g
                (reachable_Inv uuid_New node ext Hreach) Hne) as Hok.
  destruct (Process _ _ _ _ _ _) as [[[[ext' ms] cs] g']|msg]; [|done].
  by exists ext', ms, cs, g'.
Qed.

(** X2: in every state the handlers produce from the initial one, the
    requirements are in step with the extension: all [Unlocked] while it is
    [Unlocked], all [Locked] while it is [Locked], [Locking] or [Locked]
    while it is [Locking], [Unlocking] or [Unlocked] while it is
    [Unlocking], and none [Locked] while it is [AbortingLock].  While it is
    [Locking] or [AbortingLock] the pending owner and the request id are
    set, and while it is [Unlocking] the pending owner is nil. *)
Theorem requirements_follow_state node ext :
  reachable uuid_New node ext →
  (∀ k info, reqs ext !! k = Some info → allowed (State ext) (info_State info))
  ∧ (State ext = Locking ∨ State ext = AbortingLock →
     is_Some (PendingOwner ext) ∧ is_Some (ReqID ext))
  ∧ (State ext = Unlocking → PendingOwner ext = None).
Proof.
  intros Hreach. destruct (reachable_Inv uuid_New node ext Hreach) as [Hr _ Hp Hu _].
  split; [|done]. intros k info Hk. exact (Hr k info Hk).
Qed.

(** X3: a "lock" signal to an [Unlocked] extension that has requirements
    puts it in [Locking] for the sender and sends one lock signal to each
    requirement, each with its own fresh identifier, which is recorded as
    the requirement's in-flight message; the set of requirements is
    unchanged. *)
Theorem lock_fans_out node source h ext g :
  State ext = Unlocked →
  reqs ext ≠ ∅ →
  ∃ ext',
    HandleLockSignal uuid_New node source h "lock" ext g =
      Ok (ext',
          imap (λ i e, mkMessage node e.1
                  (LockSignal (mkSignalHeader (uuid_New (g + i)) Direct) "lock"))
               (map_to_list (reqs ext)),
          ["locking"], g + size (reqs ext))
    ∧ State ext' = Locking
    ∧ PendingOwner ext' = Some source
    ∧ ReqID ext' = Some (Id h)
    ∧ PendingID ext' = Id h
    ∧ Owner ext' = Owner ext
    ∧ dom (reqs ext') = dom (reqs ext)
    ∧ ∀ i k, (map_to_list (reqs ext)).*1 !! i = Some k →
        reqs ext' !! k = Some (mkReqInfo Locking (uuid_New (g + i))).
Proof.
  intros Hst Hne. unfold HandleLockSignal.
  rewrite decide_True by done. rewrite decide_True by done.
  rewrite decide_False by (by rewrite map_size_empty_iff).
  destruct ext as [st rid ow po pid rq]; cbn in *.
  destruct (fanout _ _ _ _ _ _ _) as [[m' ms'] g'] eqn:Hf.
  apply fanout_spec in Hf as (-> & -> & Hin & Hdom).
  eexists. split; [reflexivity|]. cbn. done.
Qed.

(** X4: while [Locked] with requirements, an "unlock" signal from a node
    that is not the owner is dropped without an answer: no message, no
    change, the extension as it was. *)
Theorem unlock_by_stranger_is_dropped node source owner h ext g :
  State ext = Locked →
  reqs ext ≠ ∅ →
  Owner ext = Some owner →
  source ≠ owner →
  HandleLockSignal uuid_New node source h "unlock" ext g = Ok (ext, [], [], g).
Proof.
  intros Hst Hne Hown Hsrc. unfold HandleLockSignal.
  rewrite decide_False by discriminate. rewrite decide_True by done.
  rewrite decide_True by done.
  rewrite decide_False by (by rewrite map_size_empty_iff).
  rewrite Hown. by rewrite decide_False.
Qed.

(** X5: an extension without requirements that is locked by one node can be
    unlocked by any node, the owner or not: "lock" from [a] followed by
    "unlock" from [b] answers both with a success and leaves the extension
    exactly as it was before the lock. *)
Theorem lock_then_unlock_restores node a b h1 h2 ext g :
  State ext = Unlocked →
  size (reqs ext) = 0 →
  Owner ext = None →
  PendingOwner ext = None →
  ∃ locked,
    HandleLockSignal uuid_New node a h1 "lock" ext g =
      Ok (locked,
          [mkMessage node a
             (SuccessSignal (mkResponseHeader (mkSignalHeader (uuid_New g) Direct) (Id h1)))],
          ["locked"], S g)
    ∧ Owner locked = Some a
    ∧ HandleLockSignal uuid_New node b h2 "unlock" locked (S g) =
      Ok (ext,
          [mkMessage node b
             (SuccessSignal (mkResponseHeader (mkSignalHeader (uuid_New (S g)) Direct) (Id h2)))],
          ["unlocked"], S (S g)).
Proof.
  intros Hst Hsz Hown Hpend. destruct ext as [st rid ow po pid rq]; cbn in *. subst.
  exists (mkLockableExt Locked rid (Some a) (Some a) pid rq).
  unfold HandleLockSignal; cbn. rewrite !decide_True by done.
  split; [done|]. split; [done|].
  rewrite decide_False by discriminate. by rewrite !decide_True by done.
Qed.

(** X6: in the [Unlocked] state, adding a node that is not a requirement
    and then removing it answers both signals with a success and leaves the
    requirements as they were read before; a nil map is an empty map
    afterwards. *)
Theorem link_add_then_remove node source h1 h2 id ext g :
  State ext = Unlocked →
  reqs ext !! id = None →
  ∃ added removed,
    HandleLinkSignal uuid_New node source h1 id "add" ext g =
      Ok (added,
          [mkMessage node source
             (SuccessSignal (mkResponseHeader (mkSignalHeader (uuid_New g) Direct) (Id h1)))],
          ["requirement_added"], S g)
    ∧ reqs added !! id = Some (mkReqInfo Unlocked ZeroUUID)
    ∧ HandleLinkSignal uuid_New node source h2 id "remove" added (S g) =
      Ok (removed,
          [mkMessage node source
             (SuccessSignal (mkResponseHeader (mkSignalHeader (uuid_New (S g)) Direct) (Id h2)))],
          ["requirement_removed"], S (S g))
    ∧ removed = set_Requirements (Some (reqs ext)) ext.
Proof.
  intros Hst Hid. destruct ext as [st rid ow po pid rq]; cbn in *. subst.
  unfold HandleLinkSignal; cbn. rewrite Hid.
  eexists. eexists. split; [reflexivity|]. cbn.
  rewrite lookup_insert_eq. split; [done|]. split; [reflexivity|].
  unfold set_Requirements; cbn. f_equal. f_equal.
  rewrite delete_insert_eq. by apply delete_id.
Qed.

Lemma foldl_Messages_Add node signal l :
  ∀ ms, foldl (λ msgs (entry : NodeID * ReqInfo), Messages_Add msgs node signal entry.1) ms l
        = ms ++ map (λ e, mkMessage node e.1 signal) l.
Proof.
  induction l as [|e l IH]; intros ms; cbn; [by rewrite app_nil_r|].
  rewrite IH. unfold Messages_Add. by rewrite <- app_assoc.
Qed.

(** X7: a signal marked Up or Down is only forwarded, whatever its type
    (a lock, link, error or success signal too): the extension is left as it
    was, no change is reported and no identifier is drawn.  A Down signal
    goes once to each requirement; an Up signal goes to the owner, unless
    there is none or the owner is the node itself. *)
Theorem forwarding_only node source signal ext g :
  Direction signal ≠ Direct →
  ∃ messages,
    Process uuid_New node source signal ext g = Ok (ext, messages, [], g)
    ∧ (Direction signal = Down →
       messages = map (λ e, mkMessage node e.1 signal) (map_to_list (reqs ext)))
    ∧ (Direction signal = Up →
       messages = match Owner ext with
                  | Some owner => if decide (owner = node) then []
                                  else [mkMessage node owner signal]
                  | None => []
                  end).
Proof.
  intros Hdir. unfold Process. destruct (Direction signal) eqn:Hd; [| |done].
  - destruct (Owner ext) as [owner|].
    + destruct (decide (owner = node)) as [->|Hne].
      * rewrite decide_False by (intros Hn; by apply Hn). eexists. by split.
      * rewrite decide_True by done. eexists. by split.
    + eexists. by split.
  - eexists. split; [reflexivity|]. split; [|done]. intros _.
    by rewrite foldl_Messages_Add.
Qed.

(** X8: in every state the handlers produce from the initial one, a step
    that reports no change has not moved the state machine: the state, the
    owner, the pending owner and the set of requirements are what they
    were.  (Only the in-flight record of a requirement can differ.) *)
Theorem silent_step_keeps_state node source signal ext g ext' messages g' :
  reachable uuid_New node ext →
  Process uuid_New node source signal ext g = Ok (ext', messages, [], g') →
  State ext' = State ext ∧ Owner ext' = Owner ext
  ∧ PendingOwner ext' = PendingOwner ext ∧ dom (reqs ext') = dom (reqs ext).
Proof.
  intros Hreach H. destruct (reachable_Inv uuid_New node ext Hreach) as [Hr Ho Hp Hu Hm].
  destruct ext as [st rid ow po pid rq]. unfold Process in H.
  destruct (Direction signal).
  { cbn in H. destruct ow; [case_decide|]; by simplify_eq. }
  { by simplify_eq. }
  destruct signal as [h id action | h state | h err | h | h]; cbn in *.
  - unfold HandleLinkSignal in H; cbn in H.
    repeat case_decide; try (by simplify_eq).
    + destruct (default ∅ rq !! id); [by simplify_eq|discriminate].
    + destruct (default ∅ rq !! id); [discriminate|by simplify_eq].
  - unfold HandleLockSignal in H; cbn in H.
    repeat case_decide; try discriminate; try (by simplify_eq).
    + by destruct (fanout _ _ _ _ _ _ _) as [[m' ms'] g''].
    + destruct ow as [owner|]; [|discriminate]. case_decide.
      * by destruct (fanout _ _ _ _ _ _ _) as [[m' ms'] g''].
      * by simplify_eq.
  - unfold HandleErrorSignal in H; cbn in H.
    repeat case_decide; try discriminate; try (by simplify_eq).
    destruct rq; [|discriminate].
    by destruct (abort_fanout _ _ _ _ _) as [[m' ms'] g''].
  - unfold HandleSuccessSignal, store_req in H; cbn in H.
    case_decide; [by simplify_eq|].
    destruct (default ∅ rq !! source) as [[ist imsg]|] eqn:Hs; [|by simplify_eq].
    pose proof (Hr _ _ Hs) as Hal. cbn in Hal, H.
    case_decide; [by simplify_eq|].
    destruct (decide (ist = Locking)) as [->|Hn1].
    { destruct (decide (st = Locking)) as [->|Hn2].
      - destruct (count_reqs _ _) as [n k]. case_decide; [|discriminate].
        destruct po; discriminate.
      - destruct (decide (st = AbortingLock)) as [->|Hn3]; [|by simplify_eq].
        simplify_eq. cbn. repeat split.
        apply dom_insert_lookup_L. by eexists. }
    destruct (decide (ist = Unlocking)) as [->|Hn2]; [|by simplify_eq].
    destruct (count_reqs _ _) as [n k]. case_decide; [|discriminate].
    destruct (decide (st = Unlocking)) as [->|Hn3].
    { destruct ow; discriminate. }
    destruct (decide (st = AbortingLock)) as [->|Hn4].
    { destruct rid; [|discriminate]. destruct po; discriminate. }
    destruct st; cbn in Hal; try congruence; destruct Hal; congruence.
  - by simplify_eq.
Qed.

Lemma lookup_foldl_insert (ids : list NodeID) (v : ReqInfo) :
  ∀ m k,
    foldl (λ (m : gmap NodeID ReqInfo) id, <[id := v]> m) m ids !! k
    = if decide (k ∈ ids) then Some v else m !! k.
Proof.
  induction ids as [|id ids IH]; intros m k; cbn.
  - rewrite decide_False; [done|apply not_elem_of_nil].
  - rewrite IH. destruct (decide (k ∈ ids)) as [Hin|Hnin].
    + rewrite decide_True; [done|by apply list_elem_of_further].
    + destruct (decide (k = id)) as [->|Hne].
      * rewrite lookup_insert_eq. rewrite decide_True; [done|apply list_elem_of_here].
      * rewrite lookup_insert_ne by done. rewrite decide_False; [done|].
        intros Hin. apply elem_of_cons in Hin as [?|?]; done.
Qed.

(** X9: [NewLockableExt] starts [Unlocked] with no owner, no pending owner
    and no request; a nil list gives a nil requirements map, and a list
    gives a map in which exactly the listed ids are requirements, each
    [Unlocked] with the zero message id (a repeated id counts once). *)
Theorem NewLockableExt_requirements requirements :
  let ext := NewLockableExt requirements in
  State ext = Unlocked ∧ Owner ext = None ∧ PendingOwner ext = None ∧ ReqID ext = None
  ∧ (requirements = None ↔ Requirements ext = None)
  ∧ ∀ id, reqs ext !! id =
          match requirements with
          | Some ids => if decide (id ∈ ids) then Some (mkReqInfo Unlocked ZeroUUID) else None
          | None => None
          end.
Proof.
  cbn. repeat split; try by destruct requirements.
  intros id. destruct requirements as [ids|]; cbn; [|done].
  by rewrite lookup_foldl_insert.
Qed.

Lemma foldl_abort_spec node l :
  ∀ m ms g m' ms' g',
    NoDup l.*1 →
    (∀ k v, (k, v) ∈ l → m !! k = Some v) →
    foldl (abort_step uuid_New node) (m, ms, g) l = (m', ms', g') →
    (∀ k, k ∉ l.*1 → m' !! k = m !! k)
    ∧ (∀ k v, (k, v) ∈ l → info_State v ≠ Locked → m' !! k = Some v)
    ∧ (∀ k v, (k, v) ∈ l → info_State v = Locked →
         ∃ id, m' !! k = Some (mkReqInfo Unlocking id)
               ∧ mkMessage node k (LockSignal (mkSignalHeader id Direct) "unlock") ∈ ms')
    ∧ (∀ msg, msg ∈ ms' →
         msg ∈ ms ∨ ∃ k v id, (k, v) ∈ l ∧ info_State v = Locked
                     ∧ msg = mkMessage node k (LockSignal (mkSignalHeader id Direct) "unlock"))
    ∧ (∀ msg, msg ∈ ms → msg ∈ ms').
Proof.
  induction l as [|[k0 v0] l IH]; intros m ms g m' ms' g' Hnd Hag Hf.
  - cbn in Hf. simplify_eq. repeat split; try done.
    + intros k v Hin. by apply elem_of_nil in Hin.
    + intros k v Hin. by apply elem_of_nil in Hin.
    + intros msg Hin. by left.
  - rewrite fmap_cons in Hnd. apply NoDup_cons in Hnd as [Hk0 Hnd]. cbn in Hk0.
    assert (Hfresh : ∀ k v, (k, v) ∈ l → k ≠ k0).
    { intros k v Hin ->. apply Hk0. apply list_elem_of_fmap. by exists (k0, v). }
    rewrite foldl_step, abort_step_eq in Hf. cbn in Hf.
    destruct (decide (info_State v0 = Locked)) as [Hl|Hl].
    + assert (Hag' : ∀ k v, (k, v) ∈ l →
                (<[k0 := mkReqInfo Unlocking (uuid_New g)]> m) !! k = Some v).
      { intros k v Hin. rewrite lookup_insert_ne by (intros Heq; by apply (Hfresh k v Hin)).
        apply Hag. by apply list_elem_of_further. }
      destruct (IH _ _ _ _ _ _ Hnd Hag' Hf) as (H1 & H2 & H3 & H4 & H5).
      split; [|split; [|split; [|split]]].
      * intros k Hk. rewrite fmap_cons in Hk. apply not_elem_of_cons in Hk as [Hne Hk].
        rewrite H1 by done. by rewrite lookup_insert_ne.
      * intros k v Hin Hnl. apply elem_of_cons in Hin as [Heq|Hin]; [congruence|].
        by apply H2.
      * intros k v Hin Hlk. apply elem_of_cons in Hin as [Heq|Hin].
        -- simplify_eq. exists (uuid_New g). rewrite H1 by done.
           rewrite lookup_insert_eq. split; [done|]. apply H5.
           apply elem_of_app. right. apply list_elem_of_here.
        -- by apply (H3 k v).
      * intros msg Hin. destruct (H4 msg Hin) as [Hold|(k & v & id & Hkv & Hlk & ->)].
        -- apply elem_of_app in Hold as [Hold|Hnew]; [by left|].
           apply list_elem_of_singleton in Hnew as ->. right.
           exists k0, v0, (uuid_New g). split; [apply list_elem_of_here|done].
        -- right. exists k, v, id. split; [by apply list_elem_of_further|done].
      * intros msg Hin. apply H5. apply elem_of_app. by left.
    + assert (Hag' : ∀ k v, (k, v) ∈ l → m !! k = Some v).
      { intros k v Hin. apply Hag. by apply list_elem_of_further. }
      destruct (IH _ _ _ _ _ _ Hnd Hag' Hf) as (H1 & H2 & H3 & H4 & H5).
      split; [|split; [|split; [|split]]].
      * intros k Hk. rewrite fmap_cons in Hk. apply not_elem_of_cons in Hk as [Hne Hk].
        by apply H1.
      * intros k v Hin Hnl. apply elem_of_cons in Hin as [Heq|Hin]; [|by apply H2].
        simplify_eq. rewrite H1 by done. apply Hag, list_elem_of_here.
      * intros k v Hin Hlk. apply elem_of_cons in Hin as [Heq|Hin]; [congruence|].
        by apply (H3 k v).
      * intros msg Hin. destruct (H4 msg Hin) as [Hold|(k & v & id & Hkv & Hlk & ->)];
          [by left|].
        right. exists k, v, id. split; [by apply list_elem_of_further|done].
      * done.
Qed.

(** X10: when a requirement refuses with "not_unlocked" while the extension
    is [Locking], the lock is aborted: the state becomes [AbortingLock], the
    refusing node is recorded [Unlocked] (it is added if it was no
    requirement), every other requirement that was [Locked] becomes
    [Unlocking] and is sent an unlock signal whose identifier is recorded,
    every other requirement is left as it was, and nothing else is sent. *)
Theorem refusal_aborts_lock node source h ext m g :
  State ext = Locking →
  Requirements ext = Some m →
  ∃ ext' messages g',
    HandleErrorSignal uuid_New node source h "not_unlocked" ext g =
      Ok (ext', messages, ["requirements"], g')
    ∧ State ext' = AbortingLock
    ∧ Owner ext' = Owner ext ∧ PendingOwner ext' = PendingOwner ext
    ∧ reqs ext' !! source =
        Some (mkReqInfo Unlocked (info_MsgID (default ReqInfo_zero (m !! source))))
    ∧ (∀ k, k ≠ source →
         match m !! k with
         | Some v =>
             if decide (info_State v = Locked)
             then ∃ id, reqs ext' !! k = Some (mkReqInfo Unlocking id)
                        ∧ mkMessage node k (LockSignal (mkSignalHeader id Direct) "unlock")
                          ∈ messages
             else reqs ext' !! k = Some v
         | None => reqs ext' !! k = None
         end)
    ∧ (∀ msg, msg ∈ messages →
         ∃ k v id, k ≠ source ∧ m !! k = Some v ∧ info_State v = Locked
                   ∧ msg = mkMessage node k (LockSignal (mkSignalHeader id Direct) "unlock")).
Proof.
  intros Hst Hrq. destruct ext as [st rid ow po pid rq]; cbn in *. subst.
  unfold HandleErrorSignal; cbn. rewrite decide_True by done.
  set (marked := <[source := mkReqInfo Unlocked (info_MsgID (default ReqInfo_zero (m !! source)))]> m).
  destruct (abort_fanout uuid_New node marked [] g) as [[m' ms'] g'] eqn:Hf.
  unfold abort_fanout in Hf.
  apply foldl_abort_spec in Hf as (H1 & H2 & H3 & H4 & _);
    [|apply NoDup_fst_map_to_list|by intros k v Hin; apply elem_of_map_to_list].
  exists (mkLockableExt AbortingLock rid ow po pid (Some m')), ms', g'.
  split; [done|]. cbn. split; [done|]. split; [done|]. split; [done|].
  split; [|split].
  - apply (H2 source); [|done]. apply elem_of_map_to_list. apply lookup_insert_eq.
  - intros k Hk. destruct (m !! k) as [v|] eqn:Hv.
    + assert (Hin : (k, v) ∈ map_to_list marked).
      { apply elem_of_map_to_list. unfold marked. by rewrite lookup_insert_ne. }
      destruct (decide (info_State v = Locked)) as [Hl|Hl]; [by apply (H3 k v)|by apply H2].
    + rewrite H1.
      * unfold marked. by rewrite lookup_insert_ne.
      * rewrite elem_of_keys. unfold marked. rewrite lookup_insert_ne by done.
        rewrite Hv. by intros [? ?].
  - intros msg Hin. destruct (H4 msg Hin) as [Hnil|(k & v & id & Hkv & Hl & ->)].
    { by apply elem_of_nil in Hnil. }
    apply elem_of_map_to_list in Hkv. unfold marked in Hkv.
    destruct (decide (k = source)) as [->|Hne].
    + rewrite lookup_insert_eq in Hkv. by simplify_eq.
    + rewrite lookup_insert_ne in Hkv by done. by exists k, v, id.
Qed.

Lemma filter_all_length {A} (P : A → Prop) `{∀ x, Decision (P x)} (l : list A) :
  Forall P l → length (filter P l) = length l.
Proof.
  induction 1 as [|x l Hx Hl IH]; [done|].
  rewrite filter_cons, decide_True by done. cbn. by rewrite IH.
Qed.

Lemma count_reqs_spec s m n k :
  count_reqs s m = (n, k) →
  n = size m ∧ (k = n ↔ map_Forall (λ _ v, info_State v = s) m).
Proof.
  intros Hc. split.
  - unfold count_reqs in Hc. rewrite foldl_count_step in Hc. simplify_eq.
    by rewrite length_map_to_list.
  - split; [by apply (count_reqs_all s m n k)|].
    intros Hall. unfold count_reqs in Hc. rewrite foldl_count_step in Hc. simplify_eq.
    cbn. apply (filter_all_length _ _). apply Forall_forall. intros [i v] Hin.
    apply elem_of_map_to_list in Hin. cbn. by apply (Hall i v).
Qed.

(** X11: while [Locking], a success signal that matches the in-flight lock
    of a requirement marks that requirement [Locked].  If every other
    requirement is [Locked] already, the lock is complete: the state becomes
    [Locked], the pending owner becomes the owner and is sent one success
    signal that answers the original lock request.  Otherwise the extension
    stays [Locking] and sends nothing. *)
Theorem lock_acknowledged node source owner h ext g :
  State ext = Locking →
  source ≠ node →
  reqs ext !! source = Some (mkReqInfo Locking (RespReqID h)) →
  PendingOwner ext = Some owner →
  let acked := set_Requirements
                 (Some (<[source := mkReqInfo Locked ZeroUUID]> (reqs ext))) ext in
  let others_locked :=
    map_Forall (λ _ v, info_State v = Locked) (delete source (reqs ext)) in
  (others_locked →
     HandleSuccessSignal uuid_New node source h ext g =
       Ok (set_Owner (Some owner) (set_State Locked acked),
           [mkMessage node owner
              (SuccessSignal (mkResponseHeader (mkSignalHeader (uuid_New g) Direct)
                                               (PendingID ext)))],
           ["locked"], S g))
  ∧ (¬ others_locked →
     HandleSuccessSignal uuid_New node source h ext g =
       Ok (acked, [], ["partial_lock"], g)).
Proof.
  intros Hst Hsrc Hreq Hpo. destruct ext as [st rid ow po pid rq]; cbn in *. subst.
  assert (Hiff : map_Forall (λ _ v, info_State v = Locked)
                   (<[source := mkReqInfo Locked ZeroUUID]> (default ∅ rq))
                 ↔ map_Forall (λ _ v, info_State v = Locked) (delete source (default ∅ rq))).
  { split.
    - intros Hall k v Hk. destruct (decide (k = source)) as [->|Hne].
      + by rewrite lookup_delete_eq in Hk.
      + rewrite lookup_delete_ne in Hk by done. apply (Hall k). by rewrite lookup_insert_ne.
    - intros Hall k v Hk. destruct (decide (k = source)) as [->|Hne].
      + rewrite lookup_insert_eq in Hk. by simplify_eq.
      + rewrite lookup_insert_ne in Hk by done. apply (Hall k). by rewrite lookup_delete_ne. }
  unfold HandleSuccessSignal, store_req; cbn.
  rewrite decide_False by done. rewrite Hreq; cbn.
  rewrite decide_False by (intros Hne; by apply Hne).
  rewrite !(decide_True (P := Locking = Locking)) by done.
  destruct (count_reqs _ _) as [n k] eqn:Hc.
  apply count_reqs_spec in Hc as [_ Hc]. split.
  - intros Hall. rewrite decide_True; [done|]. apply Hc. by apply Hiff.
  - intros Hnall. rewrite decide_False; [done|]. intros Heq. apply Hnall.
    apply Hiff. by apply Hc.
Qed.

End LockableMore.

(** * More about the router *)

Section RouterMore.

Import Router.

Implicit Types (ctx : Context) (msg : Message) (id : NodeID).

(** X12: when [Send] returns nil, every message of the list is queued:
    each mailbox holds what it held before followed by the messages
    addressed to it, in the order of the list. *)
Theorem Send_queues_in_order ctx messages ctx' :
  Send ctx messages = (ctx', SendOk) →
  ∀ id, mailbox ctx' id = mailbox ctx id ++ filter (λ m, Dest m = id) messages.
Proof.
  intros Hs. destruct (Send_outcome messages ctx ctx' SendOk Hs) as [[_ Hall]|[Hne _]]; done.
Qed.

(** X13: sending a list made of two parts is sending the first part and
    then, if that returned nil, the second part from the context the first
    left; a failure in the first part is the failure of the whole. *)
Theorem Send_app ctx first second :
  Send ctx (first ++ second) =
  match Send ctx first with
  | (ctx1, SendOk) => Send ctx1 second
  | failure => failure
  end.
Proof.
  revert ctx. induction first as [|msg first IH]; intros ctx; [done|].
  rewrite <- app_comm_cons, !Send_one_step. case_decide; [done|].
  destruct (getNode ctx (Dest msg)) as [ctx1 [target|err]]; [|done].
  case_decide; [apply IH|done].
Qed.

(** X14: [Send] never overfills a mailbox, never removes a node and never
    changes a capacity: if every mailbox is within its capacity before the
    call, so is every mailbox after it, however the call ends; and a node
    that was loaded is still loaded, with the same capacity and with its
    earlier messages still at the head of its mailbox. *)
Theorem Send_respects_capacity messages :
  ∀ ctx ctx' r,
    (∀ id node, nodeMap ctx !! id = Some node →
       length (Queue (MsgChan node)) ≤ Cap (MsgChan node)) →
    Send ctx messages = (ctx', r) →
    (∀ id node, nodeMap ctx' !! id = Some node →
       length (Queue (MsgChan node)) ≤ Cap (MsgChan node))
    ∧ (∀ id node, nodeMap ctx !! id = Some node →
         ∃ node', nodeMap ctx' !! id = Some node'
                  ∧ Cap (MsgChan node') = Cap (MsgChan node)
                  ∧ Queue (MsgChan node) `prefix_of` Queue (MsgChan node')).
Proof.
  induction messages as [|msg rest IH]; intros ctx ctx' r Hcap Hs.
  - cbn in Hs. simplify_eq. split; [done|]. intros id node Hl. by exists node.
  - rewrite Send_one_step in Hs. case_decide as Hz.
    { simplify_eq. split; [done|]. intros id node Hl. by exists node. }
    destruct (getNode ctx (Dest msg)) as [ctx1 [target|err]] eqn:Hg.
    + (* what [getNode] leaves *)
      assert (Hcap1 : ∀ id node, nodeMap ctx1 !! id = Some node →
                length (Queue (MsgChan node)) ≤ Cap (MsgChan node)).
      { unfold getNode, LoadNode in Hg. destruct (nodeMap ctx !! Dest msg) eqn:Hl.
        - simplify_eq. done.
        - destruct (DB ctx !! Dest msg) as [[buffer_size|e]|]; simplify_eq.
          intros id node Hl'. cbn in Hl'.
          destruct (decide (Dest msg = id)) as [<-|Hne].
          + rewrite lookup_insert_eq in Hl'. simplify_eq. cbn. lia.
          + rewrite lookup_insert_ne in Hl' by done. by apply (Hcap id). }
      assert (Hkeep1 : ∀ id node, nodeMap ctx !! id = Some node →
                nodeMap ctx1 !! id = Some node).
      { unfold getNode, LoadNode in Hg. destruct (nodeMap ctx !! Dest msg) eqn:Hl.
        - by simplify_eq.
        - destruct (DB ctx !! Dest msg) as [[buffer_size|e]|]; simplify_eq.
          intros id node Hl'. cbn. rewrite lookup_insert_ne; [done|congruence]. }
      apply getNode_found in Hg as [Hl1 _].
      case_decide as Hroom.
      * destruct (IH (enqueue ctx1 (Dest msg) target msg) ctx' r) as [Hafter Hkeep].
        { intros id node Hl'. unfold enqueue, AddNode in Hl'. cbn in Hl'.
          destruct (decide (Dest msg = id)) as [<-|Hne].
          - rewrite lookup_insert_eq in Hl'. simplify_eq. cbn. rewrite length_app. cbn. lia.
          - rewrite lookup_insert_ne in Hl' by done. by apply (Hcap1 id). }
        { done. }
        split; [done|]. intros id node Hl. apply Hkeep1 in Hl.
        destruct (decide (Dest msg = id)) as [<-|Hne].
        -- assert (node = target) as -> by congruence.
           destruct (Hkeep (Dest msg) (mkNode (mkChan (Cap (MsgChan target))
                                                 (Queue (MsgChan target) ++ [msg]))))
             as (node' & Hl' & Hc' & Hp').
           { unfold enqueue, AddNode; cbn. apply lookup_insert_eq. }
           exists node'. split; [done|]. split; [done|].
           etrans; [|exact Hp']. cbn. by apply prefix_app_r.
        -- apply (Hkeep id node). unfold enqueue, AddNode; cbn.
           by rewrite lookup_insert_ne.
      * simplify_eq. split; [done|]. intros id node Hl. exists node. by split; [apply Hkeep1|].
    + apply getNode_failed in Hg as ->. simplify_eq. split; [done|].
      intros id node Hl. by exists node.
Qed.

End RouterMore.

(** * More about [Changes.Add] *)

Section ExtensionMore.

Import Extension.

(** X15: for every caller whose [Changes] variable is well formed and for
    every list of field names, [Changes.Add] returns and the caller's
    variable is the same slice value, showing the same elements, as before
    the call. *)
Theorem Changes_Add_keeps_caller_view m p s fields :
  vars m !! p = Some s →
  wf_slice m s →
  ∃ m', Changes_Add m p fields = Ok m'
        ∧ vars m' !! p = Some s
        ∧ read m' p = read m p.
Proof. apply Changes_Add_leaves_caller. Qed.

End ExtensionMore.

(** * More about the wire format of signals *)

Section WireMore.

Import Wire WireParse.
Open Scope Z_scope.

Lemma be_value_be_bytes_small n v :
  0 ≤ v < 256 ^ Z.of_nat n → be_value (be_bytes n v) = v.
Proof. intros Hv. rewrite be_value_be_bytes by lia. apply Z.mod_small. lia. Qed.

(** What [SerializeSignal] writes, whatever the block size. *)
Lemma SerializeSignal_bytes signal block_size body :
  Serialize signal = inl body →
  SerializeSignal signal block_size =
    inl (be_bytes 4 SIGNAL_SER_MAGIC ++ be_bytes 8 (Type_Hash signal)
         ++ be_bytes 8 (Length (header_of signal body block_size))
         ++ body ++ replicate (Z.to_nat (pad_req (Z.of_nat (length body)) block_size)) 0).
Proof. intros Hser. unfold SerializeSignal. by rewrite Hser. Qed.

Lemma pad_req_range n B :
  0 ≤ n → n + 20 ≤ MaxInt → (0 < B → n + 20 + B ≤ MaxInt) → 0 ≤ pad_req n B.
Proof.
  intros Hn Hmax HB. destruct (decide (0 < B)) as [Hpos|Hneg].
  - by destruct (pad_req_spec n B) as [[? ?] _]; [| |apply HB|].
  - unfold pad_req. rewrite decide_False by lia. done.
Qed.

(** X16: [ParseSignal] reads back what [SerializeSignal] wrote: the magic
    and the length field pass its checks, the type hash selects the
    registered loader, and the loader is handed the body followed by the
    padding [SerializeSignal] added.  An unregistered type hash is answered
    with the unknown-type error. *)
Theorem ParseSignal_SerializeSignal {S : Type} (Signals : gmap Z (SignalInfo S))
    signal block_size body :
  Serialize signal = inl body →
  0 ≤ Type_Hash signal < 2 ^ 64 →
  Z.of_nat (length body) + 20 ≤ MaxInt →
  (0 < block_size → Z.of_nat (length body) + 20 + block_size ≤ MaxInt) →
  ∃ ser,
    SerializeSignal signal block_size = inl ser
    ∧ ParseSignal Signals ser =
      match Signals !! Type_Hash signal with
      | None => inr (UnknownSignalType (Type_Hash signal))
      | Some signal_def =>
          match Load signal_def
                  (body ++ replicate (Z.to_nat (pad_req (Z.of_nat (length body)) block_size)) 0)
          with
          | inr err => inr (LoadError err)
          | inl s => inl s
          end
      end.
Proof.
  intros Hser Hth Hmax HB.
  eexists. split; [exact (SerializeSignal_bytes signal block_size body Hser)|].
  pose proof (pad_req_range (Z.of_nat (length body)) block_size
                ltac:(lia) Hmax HB) as Hpad0.
  assert (Hpadlt : pad_req (Z.of_nat (length body)) block_size ≤ Z.max 0 block_size).
  { destruct (decide (0 < block_size)) as [Hpos|Hneg].
    - destruct (pad_req_spec (Z.of_nat (length body)) block_size) as [[? ?] _];
        [lia|done|by apply HB|lia].
    - unfold pad_req. rewrite decide_False by lia. lia. }
  set (pad := pad_req (Z.of_nat (length body)) block_size) in *.
  assert (HL : Length (header_of signal body block_size) = Z.of_nat (length body) + pad).
  { unfold MaxInt in *. unfold header_of; cbn. fold pad. unfold uint64.
    rewrite int_wrap_small by lia. apply Z.mod_small. lia. }
  rewrite HL.
  set (ser := be_bytes 4 SIGNAL_SER_MAGIC ++ be_bytes 8 (Type_Hash signal)
              ++ be_bytes 8 (Z.of_nat (length body) + pad)
              ++ body ++ replicate (Z.to_nat pad) 0).
  assert (Hlen : Z.of_nat (length ser) = 20 + Z.of_nat (length body) + pad).
  { unfold ser. rewrite !length_app, !length_be_bytes, length_replicate. lia. }
  assert (Hmagic : be_value (take 4 ser) = SIGNAL_SER_MAGIC).
  { unfold ser. rewrite take_app_length' by (by rewrite length_be_bytes).
    apply be_value_be_bytes_small. by vm_compute. }
  assert (Htype : be_value (take 8 (drop 4 ser)) = Type_Hash signal).
  { unfold ser. rewrite drop_app_length' by (by rewrite length_be_bytes).
    rewrite take_app_length' by (by rewrite length_be_bytes).
    apply be_value_be_bytes_small. change (256 ^ Z.of_nat 8) with (2 ^ 64). lia. }
  assert (Hlength : be_value (take 8 (drop 12 ser)) = Z.of_nat (length body) + pad).
  { unfold ser. rewrite app_assoc, (drop_app_length' _ _ 12)
      by (rewrite length_app, !length_be_bytes; done).
    rewrite take_app_length' by (by rewrite length_be_bytes).
    apply be_value_be_bytes_small. unfold MaxInt in *.
    change (256 ^ Z.of_nat 8) with (2 ^ 64). clear Hlen Hmagic Htype. clearbody ser pad. lia. }
  assert (Hbody : drop 20 ser = body ++ replicate (Z.to_nat pad) 0).
  { unfold ser. rewrite !app_assoc, <- (app_assoc _ body).
    by rewrite (drop_app_length' _ _ 20)
      by (rewrite !length_app, !length_be_bytes; done). }
  clearbody ser pad.
  unfold ParseSignal. unfold SIGNAL_SER_HEADER_LENGTH at 1.
  assert (Hnshort : ¬ Z.of_nat (length ser) < 20) by lia.
  rewrite decide_False by exact Hnshort. cbn [Magic TypeHash Length].
  rewrite Hmagic, Htype, Hlength, Hbody.
  rewrite decide_False by (intros Hne; by apply Hne).
  rewrite decide_False; [done|]. intros Hne. apply Hne.
  unfold MaxInt, SIGNAL_SER_HEADER_LENGTH in *. rewrite int_wrap_small by lia. lia.
Qed.

(** X17: [ParseSignal] returns a signal only for data that has the 20-byte
    header with the right magic, whose length field equals the number of
    bytes after the header, and whose type hash is registered; the signal
    is then what the registered loader makes of the bytes after the
    header. *)
Theorem ParseSignal_accepts {S : Type} (Signals : gmap Z (SignalInfo S)) data s :
  ParseSignal Signals data = inl s →
  20 ≤ Z.of_nat (length data)
  ∧ be_value (take 4 data) = SIGNAL_SER_MAGIC
  ∧ int_wrap (be_value (take 8 (drop 12 data))) = Z.of_nat (length data) - 20
  ∧ ∃ signal_def, Signals !! be_value (take 8 (drop 4 data)) = Some signal_def
                  ∧ Load signal_def (drop 20 data) = inl s.
Proof.
  unfold ParseSignal, SIGNAL_SER_HEADER_LENGTH. cbn [Magic TypeHash Length].
  case_decide as Hshort; [done|]. case_decide as Hmagic; [done|].
  case_decide as Hlen; [done|].
  destruct (Signals !! be_value (take 8 (drop 4 data))) as [signal_def|] eqn:Hl; [|done].
  destruct (Load signal_def (drop 20 data)) as [s'|err] eqn:Hload; [|done].
  intros [= <-]. split; [lia|]. split; [done|]. split; [done|]. by exists signal_def.
Qed.

End WireMore.

(** * Facts about serialized values *)

Section SerializedFacts.

Import Wire Serialized.
Open Scope Z_scope.

Implicit Types (value : SerializedValue) (data rest : list Z).

Lemma slice_middle (pre mid post : list Z) lo hi :
  lo = Z.of_nat (length pre) →
  hi = lo + Z.of_nat (length mid) →
  slice (pre ++ mid ++ post) lo hi = Ok mid.
Proof.
  intros -> ->. unfold slice. rewrite decide_True by (rewrite !length_app; lia).
  f_equal. rewrite Nat2Z.id. rewrite drop_app_length.
  replace (Z.to_nat _) with (length mid) by lia. by rewrite take_app_length.
Qed.

Lemma length_concat_be_bytes (types : list Z) :
  length (concat (map (λ t, be_bytes 8 t) types)) = (8 * length types)%nat.
Proof.
  induction types as [|t types IH]; [done|].
  cbn [map concat]. rewrite length_app, length_be_bytes, IH. cbn [length]. lia.
Qed.

Lemma be_value_uint64 v : 0 ≤ v < 2 ^ 64 → be_value (be_bytes 8 v) = v.
Proof.
  intros Hv. rewrite be_value_be_bytes by lia. apply Z.mod_small.
  by change (256 ^ Z.of_nat 8) with (2 ^ 64).
Qed.

Lemma read_types_marshalled (types : list Z) :
  ∀ pre post i,
    Forall (λ t, 0 ≤ t < 2 ^ 64) types →
    Z.of_nat (length pre) = (i + 2) * 8 →
    read_types (pre ++ concat (map (λ t, be_bytes 8 t) types) ++ post) i (length types)
    = Ok types.
Proof.
  induction types as [|t types IH]; intros pre post i Hrange Hpre; [done|].
  apply Forall_cons in Hrange as [Ht Hrange].
  cbn [length read_types map concat]. rewrite <- (app_assoc (be_bytes 8 t)).
  rewrite (slice_middle pre (be_bytes 8 t)) by (rewrite ?length_be_bytes; lia).
  rewrite (app_assoc pre). rewrite IH; [|done|rewrite length_app, length_be_bytes; lia].
  by rewrite be_value_uint64.
Qed.

(** The header of a marshalled value, read back. *)
Lemma marshalled_header value rest :
  well_sized value →
  let data := MarshalBinary value ++ rest in
  ¬ (Z.of_nat (length data) < 8)
  ∧ slice data 0 8 = Ok (be_bytes 8 (len (TypeStack value)))
  ∧ slice data 8 16 = Ok (be_bytes 8 (len (Data value)))
  ∧ make_types data (len (TypeStack value)) = Ok (contents (TypeStack value))
  ∧ Z.of_nat (length (MarshalBinary value))
    = 8 * (len (TypeStack value) + 2) + len (Data value).
Proof.
  intros [Hrange Hsize]. unfold MaxInt in Hsize. cbn zeta. unfold MarshalBinary, uint64.
  unfold len in *.
  rewrite !Z.mod_small by lia.
  set (h1 := be_bytes 8 (Z.of_nat (length (contents (TypeStack value))))).
  set (h2 := be_bytes 8 (Z.of_nat (length (contents (Data value))))).
  set (ts := concat (map (λ t, be_bytes 8 t) (contents (TypeStack value)))).
  assert (Hh1 : length h1 = 8%nat) by apply length_be_bytes.
  assert (Hh2 : length h2 = 8%nat) by apply length_be_bytes.
  assert (Hts : length ts = (8 * length (contents (TypeStack value)))%nat)
    by apply length_concat_be_bytes.
  split; [rewrite !length_app; lia|]. split; [|split; [|split]].
  - rewrite <- !app_assoc. apply (slice_middle [] h1); cbn; lia.
  - rewrite <- !app_assoc. apply (slice_middle h1 h2); lia.
  - unfold make_types. rewrite decide_False by lia. rewrite Nat2Z.id.
    rewrite <- !app_assoc. rewrite (app_assoc h1 h2).
    apply read_types_marshalled; [done|]. rewrite length_app. lia.
  - rewrite !length_app. lia.
Qed.

(** X18: the parser that returns the rest reads back what [MarshalBinary]
    wrote: a marshalled value followed by any bytes parses to a value with
    the same types and the same data bytes, and to those bytes as the rest.
    The slices the parser returns are never nil, so the parsed value is the
    original one exactly when neither the type stack nor the data of the
    original is nil: a nil slice comes back as an empty one that is not
    nil.  The marshalled form is the header of [SerializedSize] bytes
    followed by the data. *)
Theorem ParseSerializedValue_MarshalBinary value rest :
  well_sized value →
  let parsed :=
    mkSerializedValue (Some (contents (TypeStack value))) (Some (contents (Data value))) in
  Z.of_nat (length (MarshalBinary value)) = SerializedSize value + len (Data value)
  ∧ ParseSerializedValue (MarshalBinary value ++ rest) = Ok (inl (parsed, Some rest))
  ∧ (parsed = value ↔ is_Some (TypeStack value) ∧ is_Some (Data value)).
Proof.
  intros Hwf. pose proof Hwf as [Hrange Hsize]. unfold MaxInt in Hsize. cbn zeta.
  destruct (marshalled_header value rest Hwf) as (Hshort & Hc & Hs & Ht & Hlen).
  assert (Hn0 : 0 ≤ len (TypeStack value)) by (unfold len; lia).
  assert (Hd0 : 0 ≤ len (Data value)) by (unfold len; lia).
  split; [|split].
  { rewrite Hlen. unfold SerializedSize, uint64.
    clear Hshort Hc Hs Ht Hlen.
    assert (Hb : - 2 ^ 63 ≤ (len (TypeStack value) + 2) * 8 < 2 ^ 63) by lia.
    rewrite (int_wrap_small _ Hb). rewrite Z.mod_small by lia. lia. }
  { unfold ParseSerializedValue. rewrite decide_False by done. rewrite Hc, Hs.
    rewrite !be_value_uint64 by lia.
    rewrite (int_wrap_small (len (TypeStack value))) by lia.
    rewrite (int_wrap_small (len (Data value))) by lia.
    rewrite Ht.
    rewrite (int_wrap_small (8 * (len (TypeStack value) + 2))) by lia.
    rewrite (int_wrap_small (8 * (len (TypeStack value) + 2) + len (Data value))) by lia.
    assert (Hsplit : MarshalBinary value ++ rest
                     = (be_bytes 8 (uint64 (len (TypeStack value)))
                        ++ be_bytes 8 (uint64 (len (Data value)))
                        ++ concat (map (λ t, be_bytes 8 t) (contents (TypeStack value))))
                       ++ contents (Data value) ++ rest).
    { unfold MarshalBinary. by rewrite <- !app_assoc. }
    assert (Hpre : Z.of_nat (length (be_bytes 8 (uint64 (len (TypeStack value)))
                        ++ be_bytes 8 (uint64 (len (Data value)))
                        ++ concat (map (λ t, be_bytes 8 t) (contents (TypeStack value)))))
                   = 8 * (len (TypeStack value) + 2)).
    { rewrite !length_app, !length_be_bytes, length_concat_be_bytes. unfold len. lia. }
    rewrite Hsplit at 1.
    rewrite (slice_middle _ (contents (Data value))) by (unfold len in *; lia).
    rewrite (app_assoc _ (contents (Data value)) rest) in Hsplit.
    rewrite Hsplit at 1. rewrite <- (app_nil_r rest) at 1.
    rewrite (slice_middle _ rest []); [done| |].
    - rewrite length_app. unfold len in *. lia.
    - rewrite length_app, Nat2Z.inj_add, Hlen. lia. }
  { destruct value as [[types|] [bytes|]]; cbn; split.
    all: try (intros _; by split; eexists).
    all: try (intros [= ]).
    all: try (intros [[? ?] [? ?]]; done). }
Qed.

(** X19: the context's parser does not read back what [MarshalBinary]
    wrote.  The type stack is right, but the data it returns starts 8 bytes
    early: it is the last 8 bytes of the header (the last type, or the data
    length when there is no type) followed by the data, cut to the data's
    length.  Both slices returned are not nil. *)
Theorem ParseSerializedValue_ctx_MarshalBinary value :
  well_sized value →
  let last_word :=
    default (len (Data value)) (last (contents (TypeStack value))) in
  ParseSerializedValue_ctx (MarshalBinary value) =
    Ok (inl (mkSerializedValue (Some (contents (TypeStack value)))
               (Some (take (length (contents (Data value)))
                        (be_bytes 8 last_word ++ contents (Data value)))))).
Proof.
  intros Hwf. pose proof Hwf as [Hrange Hsize]. unfold MaxInt in Hsize. cbn zeta.
  destruct (marshalled_header value [] Hwf) as (Hshort & Hc & Hs & Ht & Hlen).
  assert (Hn0 : 0 ≤ len (TypeStack value)) by (unfold len; lia).
  assert (Hd0 : 0 ≤ len (Data value)) by (unfold len; lia).
  rewrite app_nil_r in *.
  unfold ParseSerializedValue_ctx. rewrite decide_False by done. rewrite Hc, Hs.
  rewrite !be_value_uint64 by lia.
  rewrite (int_wrap_small (len (TypeStack value))) by lia.
  rewrite (int_wrap_small (len (Data value))) by lia.
  rewrite Ht.
  rewrite (int_wrap_small (8 * (len (TypeStack value) + 1))) by lia.
  rewrite (int_wrap_small (8 * (len (TypeStack value) + 1) + len (Data value))) by lia.
  assert (Hsplit : ∃ pre, MarshalBinary value
                     = pre ++ be_bytes 8 (default (len (Data value))
                                            (last (contents (TypeStack value))))
                           ++ contents (Data value)
                     ∧ Z.of_nat (length pre) = 8 * (len (TypeStack value) + 1)).
  { unfold MarshalBinary, uint64. rewrite !Z.mod_small by lia. unfold len.
    destruct (last (contents (TypeStack value))) as [t|] eqn:Hlast.
    - apply last_Some in Hlast as [types Htypes]. rewrite Htypes.
      rewrite map_app, concat_app. cbn [map concat default]. rewrite app_nil_r.
      exists (be_bytes 8 (Z.of_nat (length (types ++ [t])))
              ++ be_bytes 8 (Z.of_nat (length (contents (Data value))))
              ++ concat (map (λ t, be_bytes 8 t) types)).
      split; [by rewrite <- !app_assoc|].
      rewrite !length_app, !length_be_bytes, length_concat_be_bytes. cbn [length]. lia.
    - apply last_None in Hlast. rewrite Hlast. cbn [map concat default length].
      exists (be_bytes 8 (Z.of_nat 0)). split; [done|]. by rewrite length_be_bytes. }
  destruct Hsplit as (pre & Hsplit & Hpre). rewrite Hsplit.
  unfold slice. rewrite decide_True.
  - f_equal. f_equal. f_equal. f_equal.
    replace (Z.to_nat (8 * (len (TypeStack value) + 1)))
      with (length pre) by lia.
    rewrite drop_app_length. f_equal. unfold len. lia.
  - rewrite <- Hsplit, Hlen. lia.
Qed.

(** X20: on fewer than 8 bytes both parsers return the error; on 8 to 15
    bytes (a full slice) both panic, reading the data length past the
    end. *)
Theorem ParseSerializedValue_short data :
  (Z.of_nat (length data) < 8 →
     (∃ err, ParseSerializedValue data = Ok (inr err))
     ∧ ∃ err, ParseSerializedValue_ctx data = Ok (inr err))
  ∧ (8 ≤ Z.of_nat (length data) < 16 →
     (∃ msg, ParseSerializedValue data = Panic msg)
     ∧ ∃ msg, ParseSerializedValue_ctx data = Panic msg).
Proof.
  split.
  - intros Hlen. unfold ParseSerializedValue, ParseSerializedValue_ctx.
    rewrite !decide_True by done. eauto.
  - intros Hlen. unfold ParseSerializedValue, ParseSerializedValue_ctx.
    rewrite !decide_False by lia.
    assert (Hlo : ∃ bytes, slice data 0 8 = Ok bytes).
    { unfold slice. rewrite decide_True by lia. eauto. }
    assert (Hhi : slice data 8 16 = Panic "slice bounds out of range").
    { unfold slice. by rewrite decide_False by lia. }
    destruct Hlo as [bytes ->]. rewrite Hhi. eauto.
Qed.

(** X21: [PopData(n)] splits the data at [n]: for [n] between 0 and the
    data's length it returns the first [n] bytes and the value that holds
    the others, with the type stack untouched; both parts are nil exactly
    when the data was nil.  For [n] above the length it returns the error,
    nil data and the value unchanged; for negative [n] it panics. *)
Theorem PopData_splits value n :
  (0 ≤ n ≤ len (Data value) →
     ∃ popped kept,
       PopData value n = Ok (popped, kept, None)
       ∧ len popped = n
       ∧ contents popped ++ contents (Data kept) = contents (Data value)
       ∧ TypeStack kept = TypeStack value
       ∧ (is_Some popped ↔ is_Some (Data value))
       ∧ (is_Some (Data kept) ↔ is_Some (Data value)))
  ∧ (len (Data value) < n →
     ∃ err, PopData value n = Ok (None, value, Some err))
  ∧ (n < 0 → ∃ msg, PopData value n = Panic msg).
Proof.
  unfold PopData, reslice, slice, len. split; [|split].
  - intros Hn. case_decide; [lia|]. case_decide; [|lia]. case_decide; [|lia].
    eexists. eexists. split; [reflexivity|]. cbn [Data TypeStack].
    change (Z.to_nat 0) with 0%nat. rewrite drop_0, Z.sub_0_r.
    destruct (Data value) as [bytes|]; cbn in *.
    + split; [rewrite length_take; lia|]. split.
      * rewrite (take_ge (drop _ _)) by (rewrite length_drop; lia). apply take_drop.
      * split; [done|]. split; split; by eexists.
    + split; [lia|]. split; [done|]. split; [done|].
      split; split; intros [? ?]; done.
  - intros Hn. case_decide; [|lia]. eauto.
  - intros Hn. case_decide; [lia|]. case_decide; [lia|]. eauto.
Qed.

End SerializedFacts.

(** * Facts about the database record of a node *)

Section NodeDBFacts.

Import Wire NodeDB.
Open Scope Z_scope.

(** X22: a node written with [WriteNode] is read back by [readNodeBytes]:
    for a node that serializes, the write succeeds, reading the same id
    gives the node's type hash and exactly the bytes it serialized to, and
    every other id reads as before. *)
Theorem readNodeBytes_WriteNode (db : DB) id node ser :
  Serialize node = inl ser →
  0 ≤ Type_Hash node < 2 ^ 64 →
  ∃ db',
    WriteNode db id (Some node) = Ok (db', None)
    ∧ readNodeBytes db' id = inl (Type_Hash node, ser)
    ∧ ∀ id', id' ≠ id → readNodeBytes db' id' = readNodeBytes db id'.
Proof.
  unfold DB in *. intros Hser Hth. unfold WriteNode, getNodeBytes. rewrite Hser.
  unfold DBHeader_Serialize, NewDBHeader. cbn [Magic TypeHash].
  rewrite decide_False by (intros Hne; by apply Hne).
  eexists. split; [reflexivity|]. split.
  - unfold readNodeBytes, DB. rewrite lookup_insert_eq.
    rewrite decide_False
      by (rewrite !length_app, !length_be_bytes; unfold NODE_DB_HEADER_LEN; lia).
    cbn [Magic TypeHash].
    rewrite <- app_assoc.
    rewrite take_app_length' by (by rewrite length_be_bytes).
    rewrite drop_app_length' by (by rewrite length_be_bytes).
    rewrite take_app_length' by (by rewrite length_be_bytes).
    rewrite (be_value_be_bytes 4) by (by vm_compute).
    rewrite (be_value_be_bytes 8) by lia.
    rewrite decide_False by (intros Hne; apply Hne; by vm_compute).
    rewrite Z.mod_small by (by change (256 ^ Z.of_nat 8) with (2 ^ 64)).
    rewrite app_assoc. by rewrite (drop_app_length' _ _ 12)
      by (rewrite length_app, !length_be_bytes; done).
  - intros id' Hne. unfold readNodeBytes, DB. by rewrite lookup_insert_ne.
Qed.

(** X23: [WriteNode] never panics, and when it returns an error (a nil
    node, or a node that fails to serialize) the database is as it was. *)
Theorem WriteNode_error_keeps_db (db : DB) id node :
  ∃ db' err, WriteNode db id node = Ok (db', err) ∧ (err ≠ None → db' = db).
Proof.
  unfold WriteNode, getNodeBytes, DBHeader_Serialize, NewDBHeader.
  destruct node as [node|]; [|by eauto].
  destruct (Serialize node) as [ser|e]; [|by eauto]. cbn [Magic].
  rewrite decide_False by (intros Hne; by apply Hne).
  eexists. eexists. split; [reflexivity|]. done.
Qed.

(** X24: [readNodeBytes] returns bytes only for a stored record that has
    the 12-byte header with the node magic; an absent id, a record shorter
    than the header and a record with another magic are errors. *)
Theorem readNodeBytes_accepts (db : DB) id type_hash bytes :
  readNodeBytes db id = inl (type_hash, bytes) →
  ∃ record,
    db !! id = Some record
    ∧ 12 ≤ Z.of_nat (length record)
    ∧ be_value (take 4 record) = NODE_DB_MAGIC
    ∧ type_hash = be_value (take 8 (drop 4 record))
    ∧ bytes = drop 12 record.
Proof.
  unfold readNodeBytes, NODE_DB_HEADER_LEN. destruct (db !! id) as [record|]; [|done].
  case_decide as Hlen; [done|]. cbn [Magic TypeHash]. case_decide as Hmagic; [done|].
  intros [= <- <-]. exists record. split; [done|]. split; [lia|]. done.
Qed.

End NodeDBFacts.

(** * Facts about the listener extension *)

Section ListenerFacts.

Import Listener.

Lemma Process_all_cons ext node source signal signals :
  Process_all ext node ((source, signal) :: signals)
  = Process_all (Process ext node source signal).1 node signals.
Proof. reflexivity. Qed.

Lemma Process_all_spec signals :
  ∀ ext node,
    length (Queue ext) ≤ Cap ext →
    Process_all ext node signals
    = mkListenerExt (Buffer ext) (Cap ext) (take (Cap ext) (Queue ext ++ signals.*2)).
Proof.
  induction signals as [|[source signal] signals IH]; intros ext node Hlen.
  - cbn. rewrite app_nil_r. rewrite take_ge by done. by destruct ext.
  - rewrite Process_all_cons. unfold Process. case_decide as Hroom; cbn [fst].
    + rewrite IH by (cbn; rewrite length_app; cbn; lia). cbn.
      by rewrite <- app_assoc.
    + rewrite IH by done. rewrite fmap_cons. cbn [snd].
      by rewrite !take_app_length' by lia.
Qed.

(** X25: the listener keeps the signals in the order they arrive and
    drops the ones that find its channel full: after a run of signals the
    channel holds what it held before followed by the new signals, cut at
    its capacity.  The capacity never changes and no message is ever
    returned. *)
Theorem listener_keeps_first ext node signals :
  length (Queue ext) ≤ Cap ext →
  Queue (Process_all ext node signals) = take (Cap ext) (Queue ext ++ signals.*2)
  ∧ Cap (Process_all ext node signals) = Cap ext
  ∧ Buffer (Process_all ext node signals) = Buffer ext
  ∧ ∀ source signal, (Process ext node source signal).2 = [].
Proof.
  intros Hlen. rewrite Process_all_spec by done. cbn. repeat split.
  intros source signal. unfold Process. by case_decide.
Qed.

End ListenerFacts.

(** * Facts about type registration *)

Section RegistryFacts.

Import Registry.

Implicit Types (ctx : Context) (r : request).

Lemma check_extensions_None ctx node_type extensions :
  ∀ ext_found,
    check_extensions ctx node_type ext_found extensions = None
    ↔ Forall (λ e, is_Some (Extensions ctx !! e)) extensions
      ∧ NoDup extensions
      ∧ Forall (λ e, ext_found !! e = None) extensions.
Proof.
  induction extensions as [|e rest IH]; intros ext_found; cbn.
  - split; [intros _; repeat constructor|done].
  - destruct (Extensions ctx !! e) as [info|] eqn:Hreg.
    + destruct (ext_found !! e) as [b|] eqn:Hfound.
      * split; [done|]. intros (_ & _ & Hnone). apply Forall_cons in Hnone as [Hnone _].
        congruence.
      * rewrite IH. rewrite !Forall_cons, NoDup_cons. split.
        -- intros (Hregs & Hnd & Hnone). split; [by split; [eexists|]|].
           split; [split; [|done]|split; [done|]].
           ++ intros Hin. rewrite Forall_forall in Hnone. specialize (Hnone e Hin).
              by rewrite lookup_insert_eq in Hnone.
           ++ eapply Forall_impl; [exact Hnone|]. intros e' He'. cbn in He'.
              destruct (decide (e = e')) as [->|Hne].
              ** by rewrite lookup_insert_eq in He'.
              ** by rewrite lookup_insert_ne in He'.
        -- intros ((_ & Hregs) & (Hnin & Hnd) & (_ & Hnone)). split; [done|]. split; [done|].
           rewrite Forall_forall in Hnone. apply Forall_forall. intros e' Hin.
           rewrite lookup_insert_ne; [by apply Hnone|]. intros ->. done.
    + split; [done|]. intros (Hregs & _). apply Forall_cons in Hregs as [[x Hx] _].
      congruence.
Qed.

(** X26: [RegisterNodeType] returns nil exactly when the node type is not
    registered yet, every extension of the list is registered, and no
    extension is listed twice.  It then records the list under the node
    type and leaves every other registry, and every other node type, as
    it was; when it returns an error the context is as it was. *)
Theorem RegisterNodeType_accepts ctx node_type extensions :
  let ctx' := (RegisterNodeType ctx node_type extensions).1 in
  let err := (RegisterNodeType ctx node_type extensions).2 in
  (err = None ↔
     Nodes ctx !! node_type = None
     ∧ Forall (λ e, is_Some (Extensions ctx !! e)) extensions
     ∧ NoDup extensions)
  ∧ (err = None →
     ctx' = mkContext (Extensions ctx) (ExtensionTypes ctx)
              (<[node_type := mkNodeInfo extensions]> (Nodes ctx))
              (Types ctx) (TypeReflects ctx) (Kinds ctx) (KindTypes ctx)
     ∧ Nodes ctx' !! node_type = Some (mkNodeInfo extensions)
     ∧ ∀ other, other ≠ node_type → Nodes ctx' !! other = Nodes ctx !! other)
  ∧ (err ≠ None → ctx' = ctx).
Proof.
  cbn zeta. unfold RegisterNodeType.
  destruct (Nodes ctx !! node_type) as [info|] eqn:Hnode; cbn.
  { split; [|done]. split; [done|]. by intros (? & _). }
  pose proof (check_extensions_None ctx node_type extensions ∅) as Hcheck.
  destruct (check_extensions ctx node_type ∅ extensions) as [err|]; cbn.
  - split; [|done]. split; [done|]. intros (_ & Hregs & Hnd).
    apply Hcheck. split; [done|]. split; [done|].
    apply Forall_forall. intros e _. apply lookup_empty.
  - split; [|split; [|done]].
    + split; [|done]. intros _. split; [done|].
      destruct Hcheck as [Hcheck _]. by destruct Hcheck as (? & ? & _).
    + intros _. split; [done|]. split; [apply lookup_insert_eq|].
      intros other Hne. by rewrite lookup_insert_ne.
Qed.

Lemma empty_consistent : consistent empty_Context.
Proof. split; cbn; intros *; by rewrite lookup_empty. Qed.

Lemma register_consistent ctx r : consistent ctx → consistent (register ctx r).1.
Proof.
  intros [Hk1 Hk2 Hk3 Ht1 Ht2 Ht3 He Hn].
  destruct r as [kind ctx_type s d | reflect_type ctx_type s d
                | reflect_type ext_type data | node_type extensions]; cbn.
  - unfold RegisterKind.
    destruct (Kinds ctx !! kind) as [?|] eqn:Hkind; [by split|].
    destruct (KindTypes ctx !! ctx_type) as [?|] eqn:Htype; [by split|].
    destruct d as [d|]; [|by split]. destruct s as [s|]; [|by split].
    split; cbn; try done.
    + intros k info Hl. destruct (decide (kind = k)) as [->|Hne].
      * rewrite lookup_insert_eq in Hl. simplify_eq. cbn. apply lookup_insert_eq.
      * rewrite lookup_insert_ne in Hl by done. rewrite lookup_insert_ne; [by apply Hk1|].
        intros Heq. apply Hk1 in Hl. congruence.
    + intros t k Hl. destruct (decide (ctx_type = t)) as [->|Hne].
      * rewrite lookup_insert_eq in Hl. simplify_eq. eexists.
        split; [apply lookup_insert_eq|done].
      * rewrite lookup_insert_ne in Hl by done. destruct (Hk2 t k Hl) as (info & Hi & Hti).
        exists info. split; [|done]. rewrite lookup_insert_ne; [done|congruence].
    + intros k info Hl. destruct (decide (kind = k)) as [->|Hne].
      * rewrite lookup_insert_eq in Hl. simplify_eq. cbn. by split; eexists.
      * rewrite lookup_insert_ne in Hl by done. by apply (Hk3 k).
  - unfold RegisterType.
    destruct (Types ctx !! ctx_type) as [?|] eqn:Htype; [by split|].
    destruct (TypeReflects ctx !! reflect_type) as [?|] eqn:Hrefl; [by split|].
    destruct d as [d|]; [|by split]. destruct s as [s|]; [|by split].
    split; cbn; try done.
    + intros t info Hl. destruct (decide (ctx_type = t)) as [->|Hne].
      * rewrite lookup_insert_eq in Hl. simplify_eq. cbn. apply lookup_insert_eq.
      * rewrite lookup_insert_ne in Hl by done. rewrite lookup_insert_ne; [by apply Ht1|].
        intros Heq. apply Ht1 in Hl. congruence.
    + intros rt t Hl. destruct (decide (reflect_type = rt)) as [->|Hne].
      * rewrite lookup_insert_eq in Hl. simplify_eq. eexists.
        split; [apply lookup_insert_eq|done].
      * rewrite lookup_insert_ne in Hl by done. destruct (Ht2 rt t Hl) as (info & Hi & Hti).
        exists info. split; [|done]. rewrite lookup_insert_ne; [done|congruence].
    + intros t info Hl. destruct (decide (ctx_type = t)) as [->|Hne].
      * rewrite lookup_insert_eq in Hl. simplify_eq. cbn. by split; eexists.
      * rewrite lookup_insert_ne in Hl by done. by apply (Ht3 t).
  - unfold RegisterExtension.
    destruct (Extensions ctx !! ext_type) as [?|] eqn:Hext; [by split|].
    split; cbn; try done.
    + intros rt e Hl. destruct (decide (reflect_type = rt)) as [->|Hne].
      * rewrite lookup_insert_eq in Hl. simplify_eq. eexists.
        split; [apply lookup_insert_eq|done].
      * rewrite lookup_insert_ne in Hl by done. destruct (He rt e Hl) as (info & Hi & Hti).
        exists info. split; [|done]. rewrite lookup_insert_ne; [done|congruence].
    + intros t info Hl. destruct (Hn t info Hl) as [Hnd Hregs]. split; [done|].
      eapply Forall_impl; [exact Hregs|]. intros e [i Hi]. cbn.
      destruct (decide (ext_type = e)) as [->|Hne]; [congruence|].
      rewrite lookup_insert_ne by done. by exists i.
  - unfold RegisterNodeType.
    destruct (Nodes ctx !! node_type) as [?|] eqn:Hnode; [by split|].
    pose proof (check_extensions_None ctx node_type extensions ∅) as Hcheck.
    destruct (check_extensions ctx node_type ∅ extensions) as [err|]; [by split|].
    destruct Hcheck as [Hcheck _]. destruct Hcheck as (Hregs & Hnd & _); [done|].
    split; cbn; try done.
    intros t info Hl. destruct (decide (node_type = t)) as [->|Hne].
    + rewrite lookup_insert_eq in Hl. by simplify_eq.
    + rewrite lookup_insert_ne in Hl by done. by apply (Hn t).
Qed.

(** X27: whatever is registered, in whatever order, and whichever
    registrations fail, the registries stay consistent: the kind table and
    its reverse index agree in both directions, as do the type table and
    its reverse index; every registered kind and type has a serialize and
    a deserialize function that is not nil; every reflected extension type
    is indexed to an extension registered with it; and every node type
    lists registered extensions without repetition. *)
Theorem registries_stay_consistent (rs : list request) :
  consistent (register_all empty_Context rs).
Proof.
  unfold register_all.
  assert (Hgen : ∀ ctx, consistent ctx →
            consistent (foldl (λ c r, (register c r).1) ctx rs)).
  { induction rs as [|r rs IH]; intros ctx Hc; [done|].
    cbn. apply IH. by apply register_consistent. }
  apply Hgen, empty_consistent.
Qed.

(** X28: a registration never replaces an entry of a table it checks: the
    extensions, node types, types, reflected types, kinds and kind types
    registered before are registered after, with the same content; and a
    registration that returns an error changes nothing at all. *)
Theorem registration_keeps_entries ctx r :
  let ctx' := (register ctx r).1 in
  Extensions ctx ⊆ Extensions ctx' ∧ Nodes ctx ⊆ Nodes ctx'
  ∧ Types ctx ⊆ Types ctx' ∧ TypeReflects ctx ⊆ TypeReflects ctx'
  ∧ Kinds ctx ⊆ Kinds ctx' ∧ KindTypes ctx ⊆ KindTypes ctx'
  ∧ ((register ctx r).2 ≠ None → ctx' = ctx).
Proof.
  cbn zeta.
  destruct r as [kind ctx_type s d | reflect_type ctx_type s d
                | reflect_type ext_type data | node_type extensions]; cbn.
  - unfold RegisterKind.
    destruct (Kinds ctx !! kind) as [?|] eqn:Hkind; [done|].
    destruct (KindTypes ctx !! ctx_type) as [?|] eqn:Htype; [done|].
    destruct d as [d|]; [|done]. destruct s as [s|]; [|done]. cbn.
    repeat split; try done; by apply insert_subseteq.
  - unfold RegisterType.
    destruct (Types ctx !! ctx_type) as [?|] eqn:Htype; [done|].
    destruct (TypeReflects ctx !! reflect_type) as [?|] eqn:Hrefl; [done|].
    destruct d as [d|]; [|done]. destruct s as [s|]; [|done]. cbn.
    repeat split; try done; by apply insert_subseteq.
  - unfold RegisterExtension.
    destruct (Extensions ctx !! ext_type) as [?|] eqn:Hext; [done|]. cbn.
    repeat split; try done; by apply insert_subseteq.
  - unfold RegisterNodeType.
    destruct (Nodes ctx !! node_type) as [?|] eqn:Hnode; [done|].
    destruct (check_extensions ctx node_type ∅ extensions) as [err|]; [done|]. cbn.
    repeat split; try done; by apply insert_subseteq.
Qed.

End RegistryFacts.

(** * The further facts on concrete runs *)

Section LockableMoreRuns.

Import Lockable Scenario Runs.

Lemma two_reqs_not_empty : reqs two_reqs ≠ ∅.
Proof.
  intros Hempty. apply (f_equal (λ m : gmap NodeID ReqInfo, m !! 7%N)) in Hempty.
  vm_compute in Hempty. discriminate.
Defined.

Lemma both_locked_not_empty : reqs both_locked ≠ ∅.
Proof.
  intros Hempty. apply (f_equal (λ m : gmap NodeID ReqInfo, m !! 7%N)) in Hempty.
  vm_compute in Hempty. discriminate.
Defined.

Lemma handlers_complete_witness :
  reachable ids node locking_ext
  ∧ ∃ ext' messages changes g',
      Process ids node client lock_signal locking_ext 1 = Ok (ext', messages, changes, g').
Proof.
  split; [exact locking_ext_reachable|].
  apply (handlers_complete ids node client lock_signal locking_ext 1).
  - exact locking_ext_reachable.
  - intros h. discriminate.
Defined.

Lemma requirements_follow_state_witness :
  reachable ids node aborting_ext
  ∧ (∀ k info, reqs aborting_ext !! k = Some info →
       allowed (State aborting_ext) (info_State info))
  ∧ (State aborting_ext = Locking ∨ State aborting_ext = AbortingLock →
     is_Some (PendingOwner aborting_ext) ∧ is_Some (ReqID aborting_ext))
  ∧ (State aborting_ext = Unlocking → PendingOwner aborting_ext = None).
Proof.
  split; [exact aborting_ext_reachable|].
  apply (requirements_follow_state ids node aborting_ext). exact aborting_ext_reachable.
Defined.

Lemma lock_fans_out_witness :
  State two_reqs = Unlocked
  ∧ ∃ ext',
      HandleLockSignal ids node client (direct 50%N) "lock" two_reqs 0 =
        Ok (ext',
            imap (λ i e, mkMessage node e.1
                    (LockSignal (mkSignalHeader (ids (0 + i)) Direct) "lock"))
                 (map_to_list (reqs two_reqs)),
            ["locking"], 0 + size (reqs two_reqs))
      ∧ State ext' = Locking
      ∧ PendingOwner ext' = Some client
      ∧ dom (reqs ext') = dom (reqs two_reqs).
Proof.
  split; [reflexivity|].
  destruct (lock_fans_out ids node client (direct 50%N) two_reqs 0 eq_refl two_reqs_not_empty)
    as (ext' & Hrun & Hst & Hpo & _ & _ & _ & Hdom & _).
  exists ext'. by repeat split.
Defined.

Lemma unlock_by_stranger_is_dropped_witness :
  State both_locked = Locked
  ∧ Owner both_locked = Some client
  ∧ HandleLockSignal ids node req (direct 53%N) "unlock" both_locked 3
    = Ok (both_locked, [], [], 3).
Proof.
  assert (Hst : State both_locked = Locked) by (vm_compute; reflexivity).
  assert (Hown : Owner both_locked = Some client) by (vm_compute; reflexivity).
  split; [exact Hst|]. split; [exact Hown|].
  apply (unlock_by_stranger_is_dropped ids node req client (direct 53%N) both_locked 3
           Hst both_locked_not_empty Hown).
  discriminate.
Defined.

Lemma lock_then_unlock_restores_witness :
  ∃ locked,
    HandleLockSignal ids node client (direct 50%N) "lock" (NewLockableExt None) 0 =
      Ok (locked,
          [mkMessage node client
             (SuccessSignal (mkResponseHeader (mkSignalHeader (ids 0) Direct) 50%N))],
          ["locked"], 1)
    ∧ Owner locked = Some client
    ∧ HandleLockSignal ids node req (direct 51%N) "unlock" locked 1 =
      Ok (NewLockableExt None,
          [mkMessage node req
             (SuccessSignal (mkResponseHeader (mkSignalHeader (ids 1) Direct) 51%N))],
          ["unlocked"], 2).
Proof.
  apply (lock_then_unlock_restores ids node client req (direct 50%N) (direct 51%N)
           (NewLockableExt None) 0); reflexivity.
Defined.

Lemma link_add_then_remove_witness :
  ∃ added removed,
    HandleLinkSignal ids node client (direct 50%N) req "add" (NewLockableExt None) 0 =
      Ok (added,
          [mkMessage node client
             (SuccessSignal (mkResponseHeader (mkSignalHeader (ids 0) Direct) 50%N))],
          ["requirement_added"], 1)
    ∧ reqs added !! req = Some (mkReqInfo Unlocked ZeroUUID)
    ∧ HandleLinkSignal ids node client (direct 51%N) req "remove" added 1 =
      Ok (removed,
          [mkMessage node client
             (SuccessSignal (mkResponseHeader (mkSignalHeader (ids 1) Direct) 51%N))],
          ["requirement_removed"], 2)
    ∧ removed = set_Requirements (Some ∅) (NewLockableExt None).
Proof.
  apply (link_add_then_remove ids node client (direct 50%N) (direct 51%N) req
           (NewLockableExt None) 0); reflexivity.
Defined.

Lemma forwarding_only_witness :
  ∃ messages,
    Process ids node client down_signal two_reqs 0 = Ok (two_reqs, messages, [], 0)
    ∧ (Direction down_signal = Down →
       messages = map (λ e, mkMessage node e.1 down_signal) (map_to_list (reqs two_reqs))).
Proof.
  destruct (forwarding_only ids node client down_signal two_reqs 0 ltac:(discriminate))
    as (messages & Hrun & Hdown & _).
  exists messages. by split.
Defined.

Lemma silent_step_keeps_state_witness :
  Process ids node client (SuccessSignal (ack 61%N 100%N)) locking_ext 1
    = Ok (locking_ext, [], [], 1)
  ∧ State locking_ext = State locking_ext ∧ Owner locking_ext = Owner locking_ext
  ∧ PendingOwner locking_ext = PendingOwner locking_ext
  ∧ dom (reqs locking_ext) = dom (reqs locking_ext).
Proof.
  assert (Hrun : Process ids node client (SuccessSignal (ack 61%N 100%N)) locking_ext 1
                 = Ok (locking_ext, [], [], 1)) by (vm_compute; reflexivity).
  split; [exact Hrun|].
  exact (silent_step_keeps_state ids node client (SuccessSignal (ack 61%N 100%N))
           locking_ext 1 locking_ext [] 1 locking_ext_reachable Hrun).
Defined.

Lemma refusal_aborts_lock_witness :
  State locking_ext = Locking
  ∧ ∃ ext' messages g',
      HandleErrorSignal ids node req (ack 60%N 100%N) "not_unlocked" locking_ext 1 =
        Ok (ext', messages, ["requirements"], g')
      ∧ State ext' = AbortingLock
      ∧ (∀ msg, msg ∈ messages →
           ∃ k v id, k ≠ req ∧ reqs locking_ext !! k = Some v ∧ info_State v = Locked
                     ∧ msg = mkMessage node k (LockSignal (mkSignalHeader id Direct) "unlock")).
Proof.
  assert (Hst : State locking_ext = Locking) by (vm_compute; reflexivity).
  assert (Hrq : Requirements locking_ext = Some (reqs locking_ext))
    by (vm_compute; reflexivity).
  split; [exact Hst|].
  destruct (refusal_aborts_lock ids node req (ack 60%N 100%N) locking_ext
              (reqs locking_ext) 1 Hst Hrq)
    as (ext' & messages & g' & Hrun & Hst' & _ & _ & _ & _ & Hmsgs).
  exists ext', messages, g'. by repeat split.
Defined.

Lemma lock_acknowledged_witness :
  map_Forall (λ _ v, info_State v = Locked) (delete req (reqs locking_ext))
  ∧ HandleSuccessSignal ids node req (ack 62%N 100%N) locking_ext 1 =
      Ok (set_Owner (Some client)
            (set_State Locked
               (set_Requirements
                  (Some (<[req := mkReqInfo Locked ZeroUUID]> (reqs locking_ext)))
                  locking_ext)),
          [mkMessage node client
             (SuccessSignal (mkResponseHeader (mkSignalHeader (ids 1) Direct)
                                              (PendingID locking_ext)))],
          ["locked"], 2).
Proof.
  assert (Hall : map_Forall (λ _ v, info_State v = Locked) (delete req (reqs locking_ext))).
  { intros k v Hk. destruct (decide (k = req)) as [->|Hne].
    - by rewrite lookup_delete_eq in Hk.
    - rewrite lookup_delete_ne in Hk by done.
      assert (Hdom : dom (reqs locking_ext) = {[ req ]}) by (vm_compute; reflexivity).
      assert (Hin : k ∈ dom (reqs locking_ext)) by (apply elem_of_dom; by eexists).
      rewrite Hdom in Hin. by apply elem_of_singleton in Hin. }
  split; [exact Hall|].
  destruct (lock_acknowledged ids node req client (ack 62%N 100%N) locking_ext 1)
    as [Hdone _].
  - vm_compute. reflexivity.
  - discriminate.
  - vm_compute. reflexivity.
  - vm_compute. reflexivity.
  - exact (Hdone Hall).
Defined.

End LockableMoreRuns.

Section RouterMoreRuns.

Import Router Scenario.

Lemma Send_queues_in_order_witness :
  Send small_ctx [first_msg] = (full_ctx, SendOk)
  ∧ ∀ id, mailbox full_ctx id = mailbox small_ctx id ++ filter (λ m, Dest m = id) [first_msg].
Proof.
  assert (Hrun : Send small_ctx [first_msg] = (full_ctx, SendOk)) by (vm_compute; reflexivity).
  split; [exact Hrun|].
  exact (Send_queues_in_order small_ctx [first_msg] full_ctx Hrun).
Defined.

Lemma small_ctx_within_capacity :
  ∀ id target, nodeMap small_ctx !! id = Some target →
    length (Queue (MsgChan target)) ≤ Cap (MsgChan target).
Proof.
  intros id target Hl. cbn in Hl. apply lookup_singleton_Some in Hl as [_ <-]. cbn. lia.
Defined.

Lemma Send_respects_capacity_witness :
  Send small_ctx [first_msg; second_msg] = (full_ctx, SendErr (SignalOverflow node))
  ∧ (∀ id target, nodeMap full_ctx !! id = Some target →
       length (Queue (MsgChan target)) ≤ Cap (MsgChan target))
  ∧ (∀ id target, nodeMap small_ctx !! id = Some target →
       ∃ target', nodeMap full_ctx !! id = Some target'
                  ∧ Cap (MsgChan target') = Cap (MsgChan target)
                  ∧ Queue (MsgChan target) `prefix_of` Queue (MsgChan target')).
Proof.
  assert (Hrun : Send small_ctx [first_msg; second_msg]
                 = (full_ctx, SendErr (SignalOverflow node))) by (vm_compute; reflexivity).
  split; [exact Hrun|].
  exact (Send_respects_capacity [first_msg; second_msg] small_ctx full_ctx
           (SendErr (SignalOverflow node)) small_ctx_within_capacity Hrun).
Defined.

End RouterMoreRuns.

Section ExtensionMoreRuns.

Import Extension Scenario.

Lemma Changes_Add_keeps_caller_view_witness :
  ∃ m', Changes_Add roomy_mem 0 ["locked"; "owner"] = Ok m'
        ∧ vars m' !! 0 = Some (mkSlice 0 1 4)
        ∧ read m' 0 = read roomy_mem 0.
Proof.
  apply (Changes_Add_keeps_caller_view roomy_mem 0 (mkSlice 0 1 4) ["locked"; "owner"]).
  - reflexivity.
  - split; [cbn; lia | reflexivity].
Defined.

End ExtensionMoreRuns.

Section WireMoreRuns.

Import Wire WireParse Scenario Runs.
Open Scope Z_scope.

Lemma ParseSignal_SerializeSignal_witness :
  ∃ ser,
    SerializeSignal json_signal 16 = inl ser
    ∧ ParseSignal echo_signals ser = inl ([123; 125] ++ replicate 10 0).
Proof.
  destruct (ParseSignal_SerializeSignal echo_signals json_signal 16 [123; 125])
    as (ser & Hser & Hparse).
  - reflexivity.
  - cbn. lia.
  - unfold MaxInt. cbn. lia.
  - intros _. unfold MaxInt. cbn. lia.
  - exists ser. split; [exact Hser|]. rewrite Hparse. vm_compute. reflexivity.
Defined.

Lemma ParseSignal_accepts_witness :
  ParseSignal echo_signals json_wire = inl ([123; 125] ++ replicate 10 0)
  ∧ 20 ≤ Z.of_nat (length json_wire)
  ∧ be_value (take 4 json_wire) = SIGNAL_SER_MAGIC
  ∧ int_wrap (be_value (take 8 (drop 12 json_wire))) = Z.of_nat (length json_wire) - 20
  ∧ ∃ signal_def, echo_signals !! be_value (take 8 (drop 4 json_wire)) = Some signal_def
                  ∧ Load signal_def (drop 20 json_wire) = inl ([123; 125] ++ replicate 10 0).
Proof.
  assert (Hrun : ParseSignal echo_signals json_wire = inl ([123; 125] ++ replicate 10 0))
    by (vm_compute; reflexivity).
  split; [exact Hrun|].
  exact (ParseSignal_accepts echo_signals json_wire _ Hrun).
Defined.

End WireMoreRuns.

Section SerializedRuns.

Import Wire Serialized Runs.
Open Scope Z_scope.

Lemma sample_value_well_sized : well_sized sample_value.
Proof.
  split.
  - unfold contents. cbn. repeat constructor; lia.
  - unfold MaxInt, len, contents. cbn. lia.
Defined.

Lemma zero_value_well_sized : well_sized zero_value.
Proof.
  split.
  - unfold contents. cbn. constructor.
  - unfold MaxInt, len, contents. cbn. lia.
Defined.

Lemma ParseSerializedValue_MarshalBinary_witness :
  well_sized sample_value
  ∧ ParseSerializedValue (MarshalBinary sample_value ++ [4; 4])
    = Ok (inl (sample_value, Some [4; 4]))
  ∧ ParseSerializedValue (MarshalBinary zero_value)
    = Ok (inl (mkSerializedValue (Some []) (Some []), Some []))
  ∧ mkSerializedValue (Some []) (Some []) ≠ zero_value.
Proof.
  split; [exact sample_value_well_sized|].
  destruct (ParseSerializedValue_MarshalBinary sample_value [4; 4] sample_value_well_sized)
    as (_ & Hsample & _).
  destruct (ParseSerializedValue_MarshalBinary zero_value [] zero_value_well_sized)
    as (_ & Hzero & Hsame).
  split; [exact Hsample|]. split.
  - rewrite app_nil_r in Hzero. exact Hzero.
  - intros Heq. apply Hsame in Heq as [[types Htypes] _]. discriminate Htypes.
Defined.

Lemma ParseSerializedValue_ctx_MarshalBinary_witness :
  ParseSerializedValue_ctx (MarshalBinary sample_value)
  = Ok (inl (mkSerializedValue (Some [5; 70000]) (Some [0; 0; 0])))
  ∧ Data sample_value = Some [1; 2; 3].
Proof.
  split; [|reflexivity].
  rewrite (ParseSerializedValue_ctx_MarshalBinary sample_value sample_value_well_sized).
  vm_compute. reflexivity.
Defined.

End SerializedRuns.

Section NodeDBRuns.

Import Wire NodeDB Runs.
Open Scope Z_scope.

Lemma readNodeBytes_WriteNode_witness :
  ∃ db',
    WriteNode ∅ "n" (Some stored_node) = Ok (db', None)
    ∧ readNodeBytes db' "n" = inl (42, [9; 8; 7])
    ∧ ∀ id', id' ≠ "n" → readNodeBytes db' id' = readNodeBytes ∅ id'.
Proof.
  apply (readNodeBytes_WriteNode ∅ "n" stored_node [9; 8; 7]).
  - reflexivity.
  - cbn. lia.
Defined.

Lemma readNodeBytes_accepts_witness :
  readNodeBytes stored_db "n" = inl (42, [9; 8; 7])
  ∧ ∃ record,
      stored_db !! "n" = Some record
      ∧ 12 ≤ Z.of_nat (length record)
      ∧ be_value (take 4 record) = NODE_DB_MAGIC
      ∧ 42 = be_value (take 8 (drop 4 record))
      ∧ [9; 8; 7] = drop 12 record.
Proof.
  assert (Hrun : readNodeBytes stored_db "n" = inl (42, [9; 8; 7]))
    by (vm_compute; reflexivity).
  split; [exact Hrun|].
  exact (readNodeBytes_accepts stored_db "n" 42 [9; 8; 7] Hrun).
Defined.

End NodeDBRuns.

Section ListenerRuns.

Import Listener Scenario Runs.

Lemma listener_keeps_first_witness :
  Queue (Process_all small_listener node
           [(client, lock_signal); (req, refusal); (client, down_signal)])
  = [lock_signal; refusal]
  ∧ Cap (Process_all small_listener node
           [(client, lock_signal); (req, refusal); (client, down_signal)]) = 2.
Proof.
  destruct (listener_keeps_first small_listener node
              [(client, lock_signal); (req, refusal); (client, down_signal)])
    as (Hq & Hc & _).
  - cbn. lia.
  - split; [exact Hq | exact Hc].
Defined.

End ListenerRuns.
